(** * LogiX: logic-based explainer (logicxplainer.py)

    A shallow embedding of the class [LogicXplainer]: the deletion based and
    the QuickXplain minimizers, the MARCO enumeration loop [enum] and the
    verifiers [check_axp] / [check_cxp], together with the properties of the
    specification that concern them.

    Feature indices are Python integers ([Z]); a list of features is a
    [list Z].  The two abstract methods [waxp] and [wcxp] are deterministic
    oracles, hence functions [list Z -> bool]; the auxiliary arguments
    [*additional_info] are passed unchanged to every oracle call and are
    part of the oracle here.  Every call of an oracle, every call of
    [slv.solve()] and every [print] is recorded in a trace, so that the
    number of oracle calls and the printed output can be spoken about. *)

From Stdlib Require Import String.
From Stdlib Require Import ZArith List Bool Lia PeanoNat.
Import ListNotations.

Open Scope Z_scope.

(** ** Outcomes, events and the trace monad *)

(** Exceptions the code can raise by itself. *)
Inductive exn : Type :=
| ValueError          (* list.remove(x): x not in list *)
| AttributeError      (* vpool.obj(..) is None, so None.split fails *)
| UnboundLocalError.  (* cxp / axp never assigned in enum *)

(** [Diverge]: the loop or the recursion does not come to an end within its
    budget (CPython gives up such a recursion with a RecursionError once
    its recursion limit is reached). *)
Inductive outcome (A : Type) : Type :=
| Ret (a : A)
| Raise (e : exn)
| Diverge.
Arguments Ret {A} a.
Arguments Raise {A} e.
Arguments Diverge {A}.

(** What the methods print.  The elapsed time is a wall-clock float and
    is not represented: [MsgRuntime] stands for the whole line. *)
Inductive message : Type :=
| MsgAXpDel (axp : list Z)          (* AXp (Del): ... *)
| MsgAXpQxp (axp : list Z)          (* AXp (Qxp): ... *)
| MsgCXpDel (cxp : list Z)          (* CXp (Del): ... *)
| MsgCXpQxp (cxp : list Z)          (* CXp (Qxp): ... *)
| MsgRuntime                        (* Runtime: ... *)
| MsgNumAXp (n : nat)               (* #AXp: n *)
| MsgNumCXp (n : nat)               (* #CXp: n *)
| MsgNotWeakAXp (axp : list Z)      (* ... is not a weak AXp *)
| MsgNotWeakCXp (cxp : list Z)      (* ... is not a weak CXp *)
| MsgNotMinimal (xp : list Z).      (* ... is not subset-minimal *)

Inductive event : Type :=
| CallWaxp (fixed : list Z)
| CallWcxp (universal : list Z)
| CallSolve (sat : bool)
| Print (msg : message).

Definition trace := list event.

Definition M (A : Type) : Type := (trace * outcome A)%type.

Definition ret {A} (a : A) : M A := ([], Ret a).
Definition raise {A} (e : exn) : M A := ([], Raise e).
Definition diverge {A} : M A := ([], Diverge).
Definition tell (e : event) : M unit := ([e], Ret tt).

Definition bind {A B} (m : M A) (f : A -> M B) : M B :=
  match m with
  | (t1, Ret a) => let (t2, o) := f a in (t1 ++ t2, o)
  | (t1, Raise e) => (t1, Raise e)
  | (t1, Diverge) => (t1, Diverge)
  end.

Notation "x <- c1 ;; c2" := (bind c1 (fun x => c2))
  (at level 61, c1 at next level, right associativity).
Notation "c1 ;; c2" := (bind c1 (fun _ => c2))
  (at level 61, right associativity).

Definition is_oracle_call (e : event) : bool :=
  match e with
  | CallWaxp _ | CallWcxp _ => true
  | _ => false
  end.

Definition is_waxp_call (e : event) : bool :=
  match e with CallWaxp _ => true | _ => false end.

Definition is_wcxp_call (e : event) : bool :=
  match e with CallWcxp _ => true | _ => false end.

Definition is_sat_solve (e : event) : bool :=
  match e with CallSolve true => true | _ => false end.

Definition is_print (e : event) : bool :=
  match e with Print _ => true | _ => false end.

(** Number of oracle calls recorded in a trace. *)
Definition oracle_calls (t : trace) : nat := length (filter is_oracle_call t).
Definition waxp_calls (t : trace) : nat := length (filter is_waxp_call t).

(** Number of iterations of the while loop of [enum]: one per call of
    [slv.solve()] that answered True. *)
Definition iterations (t : trace) : nat := length (filter is_sat_solve t).

(** The trace without what was printed. *)
Definition silent (t : trace) : trace := filter (fun e => negb (is_print e)) t.

(** ** Python list operations *)

(** [x in l] *)
Definition mem (x : Z) (l : list Z) : bool := existsb (Z.eqb x) l.

(** [l.remove(x)]: removes the first occurrence, ValueError if there is none. *)
Fixpoint list_remove (x : Z) (l : list Z) : M (list Z) :=
  match l with
  | [] => raise ValueError
  | y :: l' =>
      if Z.eqb x y then ret l'
      else (r <- list_remove x l' ;; ret (y :: r))
  end.

(** The same removal as a total function, used to state properties. *)
Fixpoint remove1 (x : Z) (l : list Z) : list Z :=
  match l with
  | [] => []
  | y :: l' => if Z.eqb x y then l' else y :: remove1 x l'
  end.

(** ** The variable pool of PySAT (IDPool)

    [IDPool()] numbers the objects it is asked about from 1 on, in the order
    of their first request.  The pool is the list of the registered objects:
    the object at position k (from 0) has the identifier k + 1.  The names
    are the strings u_<i>; they are represented by the index <i> itself
    (formatting <i> and reading it back with split and int is the
    identity on integers). *)
Definition IDPool := list Z.

Fixpoint index_of (name : Z) (pool : IDPool) : option nat :=
  match pool with
  | [] => None
  | y :: pool' =>
      if Z.eqb name y then Some O
      else match index_of name pool' with
           | Some k => Some (S k)
           | None => None
           end
  end.

(** [vpool.id(name)]: the identifier of [name], a new one if it has none. *)
Definition vpool_id (pool : IDPool) (name : Z) : Z * IDPool :=
  match index_of name pool with
  | Some k => (Z.of_nat k + 1, pool)
  | None => (Z.of_nat (length pool) + 1, pool ++ [name])
  end.

(** [vpool.obj(vid)]: the object with identifier [vid], None if there is none. *)
Definition vpool_obj (pool : IDPool) (vid : Z) : option Z :=
  if 1 <=? vid then nth_error pool (Z.to_nat (vid - 1)) else None.

(** [[sign * new_var(f'u_{i}') for i in xp]] *)
Fixpoint new_vars (pool : IDPool) (sign : Z) (xp : list Z) : list Z * IDPool :=
  match xp with
  | [] => ([], pool)
  | i :: xp' =>
      let (v, pool1) := vpool_id pool i in
      let (vs, pool2) := new_vars pool1 sign xp' in
      (sign * v :: vs, pool2)
  end.

(** [for i in feats_idx: new_var(f'u_{i}')] *)
Fixpoint register (pool : IDPool) (feats_idx : list Z) : IDPool :=
  match feats_idx with
  | [] => pool
  | i :: rest => register (snd (vpool_id pool i)) rest
  end.

(** ** The class

    An instance of (a concrete subclass of) [LogicXplainer]: its two
    abstract methods and its attribute [verbose].  [custom_object] is only
    ever used by the oracles and is part of them. *)
Record LogicXplainer : Type := {
  waxp : list Z -> bool;
  wcxp : list Z -> bool;
  verbose : Z
}.

(** The same explainer with another verbosity. *)
Definition with_verbose (self : LogicXplainer) (v : Z) : LogicXplainer :=
  {| waxp := waxp self; wcxp := wcxp self; verbose := v |}.

Definition call_waxp (self : LogicXplainer) (fixed : list Z) : M bool :=
  tell (CallWaxp fixed) ;; ret (waxp self fixed).

Definition call_wcxp (self : LogicXplainer) (universal : list Z) : M bool :=
  tell (CallWcxp universal) ;; ret (wcxp self universal).

(** [if self.verbose: if self.verbose == 1: print(msg); print(Runtime)] *)
Definition report (self : LogicXplainer) (msg : message) : M unit :=
  if negb (verbose self =? 0) then
    (if verbose self =? 1 then tell (Print msg) else ret tt) ;;
    tell (Print MsgRuntime)
  else ret tt.

(** *** Deletion based minimizer

    The loop [for i in fix] of [axp_del] and [cxp_del]: [its] is what is
    left of the list being iterated (the copy made before the loop, which
    the rebinding of [fix] inside the loop does not change), [fix_] the
    current value of [fix] ([univ] in [cxp_del]). *)
Fixpoint del_loop (oracle : list Z -> M bool) (its fix_ : list Z) : M (list Z) :=
  match its with
  | [] => ret fix_
  | i :: its' =>
      tmp_fix <- list_remove i fix_ ;;
      b <- oracle tmp_fix ;;
      del_loop oracle its' (if b then tmp_fix else fix_)
  end.

Definition axp_del (self : LogicXplainer) (fixed : list Z) : M (list Z) :=
  axp <- del_loop (call_waxp self) fixed fixed ;;
  report self (MsgAXpDel axp) ;;
  ret axp.

Definition cxp_del (self : LogicXplainer) (universal : list Z) : M (list Z) :=
  cxp <- del_loop (call_wcxp self) universal universal ;;
  report self (MsgCXpDel cxp) ;;
  ret cxp.

(** *** QuickXplain minimizer

    [qxp_recur] with its candidates [Z_] (the parameter Z of the source);
    [depth] bounds the depth of the recursion.  [u = int(len(Z) / 2)] is
    the integer quotient (the float division is exact for any length a
    list can have). *)
Definition qxp_split (Z_ : list Z) : list Z * list Z :=
  let u := Nat.div (length Z_) 2 in (firstn u Z_, skipn u Z_).

Fixpoint qxp_recur (oracle : list Z -> M bool) (depth : nat)
         (B Z_ : list Z) (newB : bool) : M (list Z) :=
  match depth with
  | O => diverge
  | S depth' =>
      stop <- (if newB then oracle B else ret false) ;;
      if stop then ret []
      else if Nat.eqb (length Z_) 1 then ret Z_
      else
        let (Z1, Z2) := qxp_split Z_ in
        Q2 <- qxp_recur oracle depth' (B ++ Z1) Z2 (Nat.ltb 0 (length Z1)) ;;
        Q1 <- qxp_recur oracle depth' (B ++ Q2) Z1 (Nat.ltb 0 (length Q2)) ;;
        ret (Q1 ++ Q2)
  end.

Definition axp_qxp (self : LogicXplainer) (depth : nat) (fixed : list Z)
  : M (list Z) :=
  axp <- qxp_recur (call_waxp self) depth [] fixed false ;;
  report self (MsgAXpQxp axp) ;;
  ret axp.

Definition cxp_qxp (self : LogicXplainer) (depth : nat) (universal : list Z)
  : M (list Z) :=
  cxp <- qxp_recur (call_wcxp self) depth [] universal false ;;
  report self (MsgCXpQxp cxp) ;;
  ret cxp.

(** *** Verifiers *)

(** The loop [for i in fix] of the verifiers; [fix] is never rebound there. *)
Fixpoint check_loop (oracle : list Z -> M bool) (xp : list Z)
         (its fix_ : list Z) : M bool :=
  match its with
  | [] => ret true
  | i :: its' =>
      tmp_fix <- list_remove i fix_ ;;
      b <- oracle tmp_fix ;;
      if b then tell (Print (MsgNotMinimal xp)) ;; ret false
      else check_loop oracle xp its' fix_
  end.

Definition check_axp (self : LogicXplainer) (axp : list Z) : M bool :=
  b <- call_waxp self axp ;;
  if negb b then tell (Print (MsgNotWeakAXp axp)) ;; ret false
  else check_loop (call_waxp self) axp axp axp.

Definition check_cxp (self : LogicXplainer) (cxp : list Z) : M bool :=
  b <- call_wcxp self cxp ;;
  if negb b then tell (Print (MsgNotWeakCXp cxp)) ;; ret false
  else check_loop (call_wcxp self) cxp cxp cxp.

(** *** Enumeration (MARCO) *)

(** [for lit in model: ... univ.extend([int(name[1])] if lit > 0 else [])] *)
Fixpoint read_model (vpool : IDPool) (model : list Z) (univ : list Z) : M (list Z) :=
  match model with
  | [] => ret univ
  | lit :: model' =>
      match vpool_obj vpool (Z.abs lit) with
      | None => raise AttributeError
      | Some i => read_model vpool model' (univ ++ (if 0 <? lit then [i] else []))
      end
  end.

Section Enumeration.

(** The SAT solver glucose4 of PySAT, seen from [enum]: the clauses added
    so far (in the order of [add_clause]) determine the answer of
    [solve()], and when it is True, the model of [get_model()]. *)
Variable solve : list (list Z) -> option (list Z).

Variable self : LogicXplainer.

(** The while loop.  Its state: the pool, the clauses of the solver and
    the two collections.  [fuel] bounds the number of iterations, [depth]
    the recursion of the QuickXplain minimizers. *)
Fixpoint enum_loop (depth fuel : nat) (feats_idx : list Z) (alg : string)
         (vpool : IDPool) (clauses : list (list Z))
         (axps cxps : list (list Z)) : M (list (list Z) * list (list Z)) :=
  match fuel with
  | O => diverge
  | S fuel' =>
      match solve clauses with
      | None => tell (CallSolve false) ;; ret (axps, cxps)
      | Some model =>
          tell (CallSolve true) ;;
          univ <- read_model vpool model [] ;;
          let fix_ := filter (fun i => negb (mem i univ)) feats_idx in
          is_wcxp <- call_wcxp self univ ;;
          if is_wcxp then
            cxp <- (if String.eqb alg "del"%string then cxp_del self univ
                    else if String.eqb alg "qxp"%string then cxp_qxp self depth univ
                    else raise UnboundLocalError) ;;
            let (clause, vpool') := new_vars vpool (-1) cxp in
            enum_loop depth fuel' feats_idx alg vpool'
                      (clauses ++ [clause]) axps (cxps ++ [cxp])
          else
            axp <- (if String.eqb alg "del"%string then axp_del self fix_
                    else if String.eqb alg "qxp"%string then axp_qxp self depth fix_
                    else raise UnboundLocalError) ;;
            let (clause, vpool') := new_vars vpool 1 axp in
            enum_loop depth fuel' feats_idx alg vpool'
                      (clauses ++ [clause]) (axps ++ [axp]) cxps
      end
  end.

Definition enum (depth fuel : nat) (feats_idx : list Z) (alg : string)
  : M (list (list Z) * list (list Z)) :=
  let vpool := register [] feats_idx in
  r <- enum_loop depth fuel feats_idx alg vpool [] [] [] ;;
  (if negb (verbose self =? 0) then
     tell (Print (MsgNumAXp (length (fst r)))) ;;
     tell (Print (MsgNumCXp (length (snd r)))) ;;
     tell (Print MsgRuntime)
   else ret tt) ;;
  ret r.

End Enumeration.

(** ** A reference solver

    A solver that meets the contract of the satisfiability oracle, used to
    run [enum]: it tries the assignments of the variables 1..k, where k is
    the largest variable of the clauses, and answers with the first one
    that has a literal in every clause. *)

Definition nof_vars (clauses : list (list Z)) : nat :=
  fold_right (fun c n => fold_right (fun l m => Nat.max (Z.to_nat (Z.abs l)) m) n c)
             O clauses.

(** All assignments of the variables [v+1 .. v+k], the all-false one first. *)
Fixpoint assignments (v : Z) (k : nat) : list (list Z) :=
  match k with
  | O => [[]]
  | S k' =>
      let rest := assignments (v + 1) k' in
      map (cons (- (v + 1))) rest ++ map (cons (v + 1)) rest
  end.

Definition clause_sat (model clause : list Z) : bool :=
  existsb (fun l => mem l model) clause.

Definition model_sat (clauses : list (list Z)) (model : list Z) : bool :=
  forallb (clause_sat model) clauses.

Definition brute_solve (clauses : list (list Z)) : option (list Z) :=
  find (model_sat clauses) (assignments 0 (nof_vars clauses)).

(** ** Notions used by the properties *)

(** [sublist A S]: [A] is [S] with some elements left out (order kept). *)
Inductive sublist : list Z -> list Z -> Prop :=
| sublist_nil : sublist [] []
| sublist_skip x l1 l2 : sublist l1 l2 -> sublist l1 (x :: l2)
| sublist_cons x l1 l2 : sublist l1 l2 -> sublist (x :: l1) (x :: l2).

(** Monotone oracle: true on a list, true on every list with at least its
    elements. *)
Definition monotone (w : list Z -> bool) : Prop :=
  forall T T', incl T T' -> w T = true -> w T' = true.

(** Subset-minimality: no single element can be removed. *)
Definition minimal (w : list Z -> bool) (A : list Z) : Prop :=
  forall x, In x A -> w (remove1 x A) = false.

(** An oracle that logs its call: the shape of [call_waxp] and [call_wcxp]. *)
Definition ask (ev : list Z -> event) (w : list Z -> bool) (l : list Z) : M bool :=
  tell (ev l) ;; ret (w l).

Definition cnt (l : list Z) (x : Z) : nat := count_occ Z.eq_dec l x.

(** What the loop of the deletion based minimizer keeps true, for the rest
    [its] of the iterated list and the working list [fix_]: the oracle
    holds on the working list; an element occurs in it at least as often as
    it is still to be visited, and more than once only if it is still to be
    visited as often; and every element of it that is not to be visited
    any more is necessary. *)
Definition del_inv (w : list Z -> bool) (its fix_ : list Z) : Prop :=
  w fix_ = true /\
  (forall x, (cnt its x <= cnt fix_ x)%nat) /\
  (forall x, (cnt fix_ x <= Nat.max 1 (cnt its x))%nat) /\
  (forall x, In x fix_ -> In x its \/ w (remove1 x fix_) = false).

(** Two runs that return the same and differ at most in what they print. *)
Definition same_result {A} (m1 m2 : M A) : Prop :=
  snd m1 = snd m2 /\ silent (fst m1) = silent (fst m2).

(** The features of [feats_idx] that are not in [U]. *)
Definition complement (feats_idx U : list Z) : list Z :=
  filter (fun i => negb (mem i U)) feats_idx.

(** The two oracles speak about the same classifier: freeing [U] can alter
    the outcome exactly when fixing the other features does not guarantee
    it. *)
Definition dual (self : LogicXplainer) (feats_idx : list Z) : Prop :=
  forall U, wcxp self U = negb (waxp self (complement feats_idx U)).

(** ** Concrete explainers *)

(** Scenario 1 of the specification: universe 1, 2, 3. *)
Definition scenario_waxp (S : list Z) : bool :=
  mem 1 S || (mem 2 S && mem 3 S).

Definition scenario_wcxp (U : list Z) : bool :=
  negb (scenario_waxp (complement [1; 2; 3] U)).

Definition scenario (v : Z) : LogicXplainer :=
  {| waxp := scenario_waxp; wcxp := scenario_wcxp; verbose := v |}.

(** A classifier that is constant: nothing has to be fixed, nothing can
    alter the outcome. *)
Definition constant_explainer : LogicXplainer :=
  {| waxp := fun _ => true; wcxp := fun _ => false; verbose := 0 |}.

(** ** Notions used for the enumeration *)

(** The identifier of the feature [i] in the pool. *)
Definition var_of (pool : IDPool) (i : Z) : Z := fst (vpool_id pool i).

(** The features a model declares universal: those of its positive
    literals. *)
Definition decode (pool : IDPool) (model : list Z) : list Z :=
  flat_map (fun lit =>
              if 0 <? lit
              then match vpool_obj pool lit with Some i => [i] | None => [] end
              else [])
           model.

(** The variables 1..k as literals. *)
Definition variables (k : nat) : list Z := map Z.of_nat (seq 1 k).

(** The contract of the satisfiability oracle, as far as [enum] relies on
    it: a model lists one literal for each of the variables 1..k, in this
    order, k being the largest variable the clauses mention, and every
    clause has one of its literals in the model. *)
Definition solver_sound (solve : list (list Z) -> option (list Z)) : Prop :=
  forall clauses model,
    solve clauses = Some model ->
    map Z.abs model = variables (nof_vars clauses) /\
    forall c, In c clauses -> exists l, In l c /\ In l model.

(** The assignment of the variables 1..n that a model stands for (a
    variable the model does not list is false). *)
Definition assignment (n : nat) (model : list Z) : list bool :=
  map (fun v => mem v model) (variables n).

(** The value of a literal under an assignment. *)
Definition lit_true (s : list bool) (l : Z) : bool :=
  if 0 <? l then nth (Z.to_nat (l - 1)) s false
  else negb (nth (Z.to_nat (- l - 1)) s false).

Definition falsifies (s : list bool) (clause : list Z) : Prop :=
  forall l, In l clause -> lit_true s l = false.

(** All the assignments of n variables. *)
Fixpoint all_vectors (n : nat) : list (list bool) :=
  match n with
  | O => [[]]
  | S n' => map (cons false) (all_vectors n') ++ map (cons true) (all_vectors n')
  end.

(** No two entries of the collection have the same elements. *)
Definition distinct_sets (l : list (list Z)) : Prop :=
  forall i j a b,
    i <> j -> nth_error l i = Some a -> nth_error l j = Some b ->
    ~ (incl a b /\ incl b a).

(** No entry of the collection is covered by a later one. *)
Definition no_later_superset (l : list (list Z)) : Prop :=
  forall i j a b,
    (i < j)%nat -> nth_error l i = Some a -> nth_error l j = Some b ->
    ~ incl a b.

(** What the loop of [enum] keeps true of its collections and clauses, for
    the pool of the features: no explanation is covered by a later one
    of its kind, every explanation is made of registered features, and its
    blocking clause is among the clauses. *)
Definition blocked (pool : IDPool) (clauses axps cxps : list (list Z)) : Prop :=
  no_later_superset axps /\
  no_later_superset cxps /\
  (forall a, In a axps ->
             incl a pool /\ In (map (fun i => 1 * var_of pool i) a) clauses) /\
  (forall c, In c cxps ->
             incl c pool /\ In (map (fun i => -1 * var_of pool i) c) clauses).

(** What the loop of [enum] keeps true of its clauses, for [n] variables
    and the assignments [seen] sampled so far: the clauses are over the
    variables 1..n, and the assignments sampled are different from each
    other and each one is excluded by a clause. *)
Definition excluded (n : nat) (clauses : list (list Z)) (seen : list (list bool))
  : Prop :=
  (forall c l, In c clauses -> In l c -> 1 <= Z.abs l <= Z.of_nat n) /\
  NoDup seen /\
  (forall s, In s seen ->
             length s = n /\ exists c, In c clauses /\ falsifies s c).

(** The other half of the contract of the satisfiability oracle: when
    [solve()] answers False, no assignment of the variables of the clauses
    has a literal in every clause. *)
Definition solver_complete (solve : list (list Z) -> option (list Z)) : Prop :=
  forall clauses model,
    solve clauses = None ->
    map Z.abs model = variables (nof_vars clauses) ->
    exists c, In c clauses /\ forall l, In l c -> ~ In l model.

(** The assignment of the variables 1..k that frees exactly the features of
    [U], as a model. *)
Definition model_for (pool : IDPool) (k : nat) (U : list Z) : list Z :=
  map (fun v => match vpool_obj pool v with
                | Some i => if mem i U then v else - v
                | None => - v
                end)
      (variables k).

(** Same elements. *)
Definition same_set (a b : list Z) : Prop := incl a b /\ incl b a.

(** Two monotone oracles that do not speak about the same classifier. *)
Definition unrelated_explainer : LogicXplainer :=
  {| waxp := fun S => mem 1 S; wcxp := fun U => mem 2 U; verbose := 0 |}.

(** ** The trace monad *)

Lemma bind_ret_inv {A B} (m : M A) (f : A -> M B) t b :
  bind m f = (t, Ret b) ->
  exists t1 a t2, m = (t1, Ret a) /\ f a = (t2, Ret b) /\ t = t1 ++ t2.
Proof.
  destruct m as [t1 [a| |]]; simpl; try discriminate.
  destruct (f a) as [t2 o] eqn:E. intros H; inversion H; subst.
  exists t1, a, t2. auto.
Qed.

Lemma bind_ret_l {A B} (a : A) (f : A -> M B) : bind (ret a) f = f a.
Proof. unfold bind, ret. destruct (f a); reflexivity. Qed.

Lemma bind_val {A B} (m : M A) (f : A -> M B) t a :
  m = (t, Ret a) -> bind m f = (t ++ fst (f a), snd (f a)).
Proof. intros ->. simpl. destruct (f a); reflexivity. Qed.

Lemma ask_val ev w l : ask ev w l = ([ev l], Ret (w l)).
Proof. reflexivity. Qed.

(** The report prints, and nothing else. *)
Lemma report_val self msg :
  exists t, report self msg = (t, Ret tt) /\ forallb is_print t = true.
Proof.
  unfold report. destruct (verbose self =? 0); simpl.
  - exists []. auto.
  - destruct (verbose self =? 1); simpl; eexists; split; reflexivity.
Qed.

(** ** Lists *)

Lemma mem_In x l : mem x l = true <-> In x l.
Proof.
  unfold mem. rewrite existsb_exists. split.
  - intros (y & Hy & E). apply Z.eqb_eq in E. now subst.
  - intros H. exists x. split; [assumption | apply Z.eqb_refl].
Qed.

Lemma mem_false x l : mem x l = false <-> ~ In x l.
Proof.
  rewrite <- mem_In. destruct (mem x l); split; congruence.
Qed.

Lemma cnt_In l x : In x l <-> (0 < cnt l x)%nat.
Proof. unfold cnt. apply (count_occ_In Z.eq_dec). Qed.

Lemma cnt_cons l y x :
  cnt (y :: l) x = ((if Z.eqb y x then 1 else 0) + cnt l x)%nat.
Proof.
  unfold cnt. simpl. destruct (Z.eq_dec y x) as [E|E].
  - subst. now rewrite Z.eqb_refl.
  - apply Z.eqb_neq in E. now rewrite E.
Qed.

Lemma cnt_remove1 x l y :
  cnt (remove1 x l) y = (cnt l y - (if Z.eqb x y then 1 else 0))%nat.
Proof.
  induction l as [|z l IH]; cbn [remove1].
  - reflexivity.
  - destruct (Z.eqb x z) eqn:E.
    + apply Z.eqb_eq in E. subst z. rewrite cnt_cons.
      destruct (Z.eqb x y); lia.
    + rewrite !cnt_cons, IH. destruct (Z.eqb z y) eqn:E1; [|lia].
      apply Z.eqb_eq in E1. subst z. rewrite E. lia.
Qed.

Lemma cnt_incl l1 l2 :
  (forall y, (0 < cnt l1 y)%nat -> (0 < cnt l2 y)%nat) -> incl l1 l2.
Proof.
  intros H y Hy. apply cnt_In. apply H. now apply cnt_In.
Qed.

Lemma remove1_In y x l : In y (remove1 x l) -> In y l.
Proof.
  rewrite !cnt_In, cnt_remove1. lia.
Qed.

Lemma remove1_sublist x l : sublist (remove1 x l) l.
Proof.
  induction l as [|y l IH]; simpl.
  - constructor.
  - destruct (Z.eqb x y).
    + constructor. clear IH. induction l; constructor; assumption.
    + now constructor.
Qed.

Lemma sublist_refl l : sublist l l.
Proof. induction l; constructor; assumption. Qed.

Lemma sublist_trans l1 l2 l3 : sublist l1 l2 -> sublist l2 l3 -> sublist l1 l3.
Proof.
  intros H12 H23. revert l1 H12.
  induction H23; intros k H12.
  - assumption.
  - constructor. auto.
  - inversion H12; subst.
    + apply sublist_skip. auto.
    + apply sublist_cons. auto.
Qed.

Lemma sublist_incl l1 l2 : sublist l1 l2 -> incl l1 l2.
Proof.
  induction 1; intros y Hy.
  - assumption.
  - right. auto.
  - destruct Hy as [->|Hy]; [now left | right; auto].
Qed.

Lemma sublist_nil_l l : sublist [] l.
Proof. induction l; constructor; assumption. Qed.

Lemma sublist_app l1 l2 k1 k2 :
  sublist l1 k1 -> sublist l2 k2 -> sublist (l1 ++ l2) (k1 ++ k2).
Proof.
  induction 1; intros H2; simpl.
  - assumption.
  - apply sublist_skip. auto.
  - apply sublist_cons. auto.
Qed.

Lemma list_remove_in x l : In x l -> list_remove x l = ([], Ret (remove1 x l)).
Proof.
  induction l as [|y l IH]; simpl; [tauto|].
  intros H. destruct (Z.eqb x y) eqn:E; [reflexivity|].
  apply Z.eqb_neq in E. destruct H as [H|H]; [congruence|].
  rewrite (IH H). reflexivity.
Qed.

Lemma list_remove_notin x l : ~ In x l -> list_remove x l = ([], Raise ValueError).
Proof.
  induction l as [|y l IH]; simpl; [reflexivity|].
  intros H. destruct (Z.eqb x y) eqn:E.
  - apply Z.eqb_eq in E. subst. tauto.
  - rewrite IH by tauto. reflexivity.
Qed.

Lemma monotone_false w (Hw : monotone w) T T' :
  incl T T' -> w T' = false -> w T = false.
Proof.
  intros Hincl HF. destruct (w T) eqn:E; [|reflexivity].
  rewrite (Hw _ _ Hincl E) in HF. discriminate.
Qed.

Lemma remove1_app x l1 l2 :
  remove1 x (l1 ++ l2) =
  if mem x l1 then remove1 x l1 ++ l2 else l1 ++ remove1 x l2.
Proof.
  induction l1 as [|y l1 IH]; simpl.
  - reflexivity.
  - destruct (Z.eqb x y); simpl; [reflexivity|].
    rewrite IH. fold (mem x l1). destruct (mem x l1); reflexivity.
Qed.

(** ** The deletion based minimizer *)

Section Deletion.

Variable ev : list Z -> event.
Variable w : list Z -> bool.

(** One turn of the loop, when the element is in the working list. *)
Lemma del_loop_step i its fix_ :
  In i fix_ ->
  del_loop (ask ev w) (i :: its) fix_ =
  (ev (remove1 i fix_)
     :: fst (del_loop (ask ev w) its
                      (if w (remove1 i fix_) then remove1 i fix_ else fix_)),
   snd (del_loop (ask ev w) its
                 (if w (remove1 i fix_) then remove1 i fix_ else fix_))).
Proof.
  intros Hin. cbn [del_loop].
  rewrite (bind_val _ _ _ _ (list_remove_in _ _ Hin)).
  rewrite (bind_val _ _ _ _ (ask_val ev w (remove1 i fix_))).
  reflexivity.
Qed.

(** The loop never fails: every element still to be visited is in the
    working list, as often as it is still to be visited.  It asks the
    oracle once per element visited. *)
Lemma del_loop_total its :
  forall fix_,
    (forall x, (cnt its x <= cnt fix_ x)%nat) ->
    exists qs A,
      del_loop (ask ev w) its fix_ = (map ev qs, Ret A) /\
      length qs = length its /\
      sublist A fix_.
Proof.
  induction its as [|i its IH]; intros fix_ Hcnt.
  - exists [], fix_. repeat split. apply sublist_refl.
  - assert (Hin : In i fix_).
    { apply cnt_In. specialize (Hcnt i). rewrite cnt_cons, Z.eqb_refl in Hcnt. lia. }
    rewrite (del_loop_step _ _ _ Hin).
    destruct (IH (if w (remove1 i fix_) then remove1 i fix_ else fix_))
      as (qs & A & E & Hlen & Hsub).
    { intros x. specialize (Hcnt x). rewrite cnt_cons in Hcnt.
      destruct (w (remove1 i fix_)); [rewrite cnt_remove1|];
        destruct (Z.eqb i x); lia. }
    exists (remove1 i fix_ :: qs), A. rewrite E. simpl.
    repeat split; [lia|].
    destruct (w (remove1 i fix_)); [|assumption].
    eapply sublist_trans; [eassumption | apply remove1_sublist].
Qed.

Hypothesis w_mono : monotone w.

Let mono_false := monotone_false w w_mono.

Lemma del_inv_step i its fix_ :
  del_inv w (i :: its) fix_ ->
  del_inv w its (if w (remove1 i fix_) then remove1 i fix_ else fix_).
Proof.
  intros (H1 & H2 & H3 & H4).
  destruct (w (remove1 i fix_)) eqn:Hw; repeat split.
  - assumption.
  - intros x. specialize (H2 x). rewrite cnt_cons in H2. rewrite cnt_remove1.
    destruct (Z.eqb i x); lia.
  - intros x. specialize (H2 x). specialize (H3 x).
    rewrite cnt_cons in H2, H3. rewrite cnt_remove1.
    destruct (Z.eqb i x); lia.
  - intros x Hx.
    destruct (H4 x (remove1_In _ _ _ Hx)) as [[->|Hin]|HF].
    + (* x = i is left in the list: it had to be visited again *)
      left. apply cnt_In. apply cnt_In in Hx. rewrite cnt_remove1 in Hx.
      specialize (H3 x). rewrite cnt_cons in H3.
      rewrite Z.eqb_refl in Hx, H3. lia.
    + now left.
    + right. eapply mono_false; [|exact HF].
      apply cnt_incl. intros y. rewrite !cnt_remove1.
      destruct (Z.eqb x y), (Z.eqb i y); lia.
  - assumption.
  - intros x. specialize (H2 x). rewrite cnt_cons in H2.
    destruct (Z.eqb i x); lia.
  - intros x. specialize (H2 x). specialize (H3 x). rewrite cnt_cons in H2, H3.
    destruct (Z.eqb i x) eqn:E; [|lia].
    apply Z.eqb_eq in E. subst x.
    destruct (cnt its i) as [|n] eqn:Hn; [lia|].
    (* i is there twice: removing one copy keeps the same set *)
    exfalso. assert (Hincl : incl fix_ (remove1 i fix_)).
    { apply cnt_incl. intros y. rewrite cnt_remove1.
      destruct (Z.eqb i y) eqn:E; [|lia].
      apply Z.eqb_eq in E. subst y. lia. }
    rewrite (w_mono _ _ Hincl H1) in Hw. discriminate.
  - intros x Hx. destruct (H4 x Hx) as [[->|Hin]|HF]; auto.
Qed.

Lemma del_loop_minimal its :
  forall fix_ t A,
    del_loop (ask ev w) its fix_ = (t, Ret A) ->
    del_inv w its fix_ ->
    w A = true /\ minimal w A /\ NoDup A.
Proof.
  induction its as [|i its IH]; intros fix_ t A E Hinv.
  - inversion E; subst. destruct Hinv as (H1 & _ & H3 & H4).
    repeat split.
    + assumption.
    + intros x Hx. destruct (H4 x Hx) as [[]|HF]. assumption.
    + apply (NoDup_count_occ Z.eq_dec). intros x. apply (H3 x).
  - assert (Hin : In i fix_).
    { destruct Hinv as (_ & H2 & _). apply cnt_In. specialize (H2 i).
      rewrite cnt_cons, Z.eqb_refl in H2. lia. }
    rewrite (del_loop_step _ _ _ Hin) in E.
    eapply IH; [|apply del_inv_step; eassumption].
    inversion E; subst. apply surjective_pairing.
Qed.

Lemma del_inv_init S : w S = true -> del_inv w S S.
Proof.
  intros H. repeat split; auto; intros x; lia.
Qed.

End Deletion.

(** ** The QuickXplain minimizer *)

Lemma qxp_split_app Z_ : fst (qxp_split Z_) ++ snd (qxp_split Z_) = Z_.
Proof. unfold qxp_split. cbn [fst snd]. apply firstn_skipn. Qed.

Lemma qxp_split_length Z_ :
  length (fst (qxp_split Z_)) = Nat.div (length Z_) 2 /\
  length (snd (qxp_split Z_)) = (length Z_ - Nat.div (length Z_) 2)%nat.
Proof.
  unfold qxp_split. cbn [fst snd]. rewrite length_firstn, length_skipn.
  assert (Nat.div (length Z_) 2 <= length Z_)%nat
    by (apply Nat.Div0.div_le_upper_bound; lia).
  lia.
Qed.

(** With two candidates or more both halves are non-empty and shorter. *)
Lemma qxp_split_halves Z_ :
  (2 <= length Z_)%nat ->
  (1 <= length (fst (qxp_split Z_)) < length Z_)%nat /\
  (1 <= length (snd (qxp_split Z_)) < length Z_)%nat.
Proof.
  intros H. destruct (qxp_split_length Z_) as [-> ->].
  assert (H1 : (1 <= Nat.div (length Z_) 2)%nat)
    by (apply Nat.div_le_lower_bound; lia).
  assert (H2 : (Nat.div (length Z_) 2 < length Z_)%nat)
    by (apply Nat.div_lt; lia).
  lia.
Qed.

Section QuickXplain.

Variable ev : list Z -> event.
Variable w : list Z -> bool.

(** The ways in which a call can return. *)
Lemma qxp_recur_inv d B Z_ newB t Q :
  qxp_recur (ask ev w) (S d) B Z_ newB = (t, Ret Q) ->
  (newB = true /\ w B = true /\ Q = []) \/
  ((newB = true -> w B = false) /\
   ((length Z_ = 1%nat /\ Q = Z_) \/
    (length Z_ <> 1%nat /\
     exists t2 Q2 t1 Q1,
       qxp_recur (ask ev w) d (B ++ fst (qxp_split Z_)) (snd (qxp_split Z_))
                 (Nat.ltb 0 (length (fst (qxp_split Z_)))) = (t2, Ret Q2) /\
       qxp_recur (ask ev w) d (B ++ Q2) (fst (qxp_split Z_))
                 (Nat.ltb 0 (length Q2)) = (t1, Ret Q1) /\
       Q = Q1 ++ Q2))).
Proof.
  cbn [qxp_recur]. intros H.
  apply bind_ret_inv in H. destruct H as (t0 & stop & t' & E0 & E & ->).
  assert (Hstop : stop = newB && w B).
  { destruct newB; inversion E0; reflexivity. }
  clear E0. destruct stop.
  - symmetry in Hstop. apply andb_true_iff in Hstop. destruct Hstop.
    inversion E; subst. left. auto.
  - right. split.
    { intros ->. simpl in Hstop. congruence. }
    destruct (Nat.eqb (length Z_) 1) eqn:Hlen.
    + apply Nat.eqb_eq in Hlen. inversion E; subst. left. auto.
    + apply Nat.eqb_neq in Hlen. right. split; [assumption|].
      destruct (qxp_split Z_) as [Z1 Z2]. cbn [fst snd].
      apply bind_ret_inv in E. destruct E as (t2 & Q2 & t'' & E2 & E & ->).
      apply bind_ret_inv in E. destruct E as (t1 & Q1 & t3 & E1 & E & ->).
      inversion E; subst. exists t2, Q2, t1, Q1. auto.
Qed.

(** What is returned is a sublist of the candidates. *)
Lemma qxp_recur_sublist d :
  forall B Z_ newB t Q,
    qxp_recur (ask ev w) d B Z_ newB = (t, Ret Q) -> sublist Q Z_.
Proof.
  induction d as [|d IH]; intros B Z_ newB t Q H.
  - discriminate.
  - apply qxp_recur_inv in H.
    destruct H as [(_ & _ & ->) | (_ & [(_ & ->) | (_ & t2 & Q2 & t1 & Q1 & E2 & E1 & ->)])].
    + apply sublist_nil_l.
    + apply sublist_refl.
    + rewrite <- (qxp_split_app Z_) at 1.
      apply sublist_app; eapply IH; eassumption.
Qed.

(** A call on a non-empty list of candidates returns when the depth
    allowed is at least the number of candidates. *)
Lemma qxp_recur_total d :
  forall B Z_ newB,
    Z_ <> [] -> (length Z_ <= d)%nat ->
    exists qs Q, qxp_recur (ask ev w) d B Z_ newB = (map ev qs, Ret Q).
Proof.
  induction d as [|d IH]; intros B Z_ newB Hne Hlen.
  - destruct Z_; [congruence | simpl in Hlen; lia].
  - cbn [qxp_recur].
    assert (E0 : (if newB then ask ev w B else ret false) =
                 (map ev (if newB then [B] else []), Ret (newB && w B))).
    { destruct newB; reflexivity. }
    rewrite (bind_val _ _ _ _ E0). clear E0.
    destruct (newB && w B).
    { exists (if newB then [B] else []), []. simpl. now rewrite app_nil_r. }
    destruct (Nat.eqb (length Z_) 1) eqn:H1.
    { exists (if newB then [B] else []), Z_. simpl. now rewrite app_nil_r. }
    apply Nat.eqb_neq in H1.
    assert (H2 : (2 <= length Z_)%nat).
    { destruct Z_ as [|? [|? ?]]; simpl in *; try congruence; lia. }
    destruct (qxp_split_halves Z_ H2) as [Hl1 Hl2].
    destruct (qxp_split Z_) as [Z1 Z2]. cbn [fst snd] in *.
    destruct (IH (B ++ Z1) Z2 (Nat.ltb 0 (length Z1))) as (qs2 & Q2 & E2).
    { intros ->. simpl in *. lia. }
    { lia. }
    destruct (IH (B ++ Q2) Z1 (Nat.ltb 0 (length Q2))) as (qs1 & Q1 & E1).
    { intros ->. simpl in *. lia. }
    { lia. }
    rewrite (bind_val _ _ _ _ E2), (bind_val _ _ _ _ E1).
    exists ((if newB then [B] else []) ++ qs2 ++ qs1), (Q1 ++ Q2).
    simpl. rewrite !map_app, app_nil_r. reflexivity.
Qed.

(** On no candidates the recursion never comes to an end. *)
Lemma qxp_recur_empty d :
  forall B, qxp_recur (ask ev w) d B [] false = ([], Diverge).
Proof.
  induction d as [|d IH]; intros B.
  - reflexivity.
  - cbn [qxp_recur]. rewrite bind_ret_l. simpl. rewrite app_nil_r.
    rewrite IH. reflexivity.
Qed.

Hypothesis w_mono : monotone w.

(** The oracle still holds on the base with what is returned. *)
Lemma qxp_recur_weak d :
  forall B Z_ newB t Q,
    qxp_recur (ask ev w) d B Z_ newB = (t, Ret Q) ->
    w (B ++ Z_) = true ->
    w (B ++ Q) = true.
Proof.
  induction d as [|d IH]; intros B Z_ newB t Q H HZ.
  - discriminate.
  - apply qxp_recur_inv in H.
    destruct H as [(_ & HB & ->) | (_ & [(_ & ->) | (_ & t2 & Q2 & t1 & Q1 & E2 & E1 & ->)])].
    + now rewrite app_nil_r.
    + assumption.
    + assert (H2 : w ((B ++ fst (qxp_split Z_)) ++ Q2) = true).
      { eapply IH; [eassumption|].
        now rewrite <- app_assoc, qxp_split_app. }
      assert (H1 : w ((B ++ Q2) ++ Q1) = true).
      { eapply IH; [eassumption|].
        eapply w_mono; [|exact H2].
        intros y. rewrite !in_app_iff. tauto. }
      eapply w_mono; [|exact H1].
      intros y. rewrite !in_app_iff. tauto.
Qed.

(** Every element returned is necessary, when the base alone does not
    satisfy the oracle. *)
Lemma qxp_recur_minimal d :
  forall B Z_ newB t Q,
    qxp_recur (ask ev w) d B Z_ newB = (t, Ret Q) ->
    w (B ++ Z_) = true ->
    Z_ <> [] ->
    (newB = false -> w B = false) ->
    forall x, In x Q -> w (B ++ remove1 x Q) = false.
Proof.
  induction d as [|d IH]; intros B Z_ newB t Q H HZ Hne HB x Hx.
  - discriminate.
  - apply qxp_recur_inv in H.
    destruct H as [(_ & _ & ->) | (HB' & [(Hlen & ->) | (Hlen & t2 & Q2 & t1 & Q1 & E2 & E1 & ->)])].
    + destruct Hx.
    + assert (HwB : w B = false) by (destruct newB; auto).
      destruct Z_ as [|z [|? ?]]; try discriminate.
      destruct Hx as [->|[]]. simpl. rewrite Z.eqb_refl.
      now rewrite app_nil_r.
    + assert (HwB : w B = false) by (destruct newB; auto).
      assert (H2 : (2 <= length Z_)%nat).
      { destruct Z_ as [|? [|? ?]]; simpl in *; try congruence; lia. }
      destruct (qxp_split_halves Z_ H2) as [Hl1 Hl2].
      pose proof (qxp_split_app Z_) as Happ.
      destruct (qxp_split Z_) as [Z1 Z2]. cbn [fst snd] in *.
      assert (HZ2 : w ((B ++ Z1) ++ Z2) = true).
      { now rewrite <- app_assoc, Happ. }
      pose proof (qxp_recur_weak _ _ _ _ _ _ E2 HZ2) as Hw2.
      assert (HZ1 : w ((B ++ Q2) ++ Z1) = true).
      { eapply w_mono; [|exact Hw2].
        intros y. rewrite !in_app_iff. tauto. }
      pose proof (qxp_recur_sublist _ _ _ _ _ _ E1) as Hs1.
      rewrite remove1_app. destruct (mem x Q1) eqn:Hm.
      * apply mem_In in Hm.
        eapply (monotone_false w w_mono);
          [|apply (IH _ _ _ _ _ E1 HZ1) with (x := x)].
        -- intros y. rewrite !in_app_iff. tauto.
        -- intros ->. simpl in *. lia.
        -- intros HQ2. destruct Q2; [now rewrite app_nil_r | discriminate].
        -- assumption.
      * apply mem_false in Hm.
        apply in_app_iff in Hx. destruct Hx as [Hx|Hx]; [tauto|].
        eapply (monotone_false w w_mono);
          [|apply (IH _ _ _ _ _ E2 HZ2) with (x := x)].
        -- intros y. rewrite !in_app_iff. intros [Hy|[Hy|Hy]]; auto.
           left. right. eapply sublist_incl; eassumption.
        -- intros ->. simpl in *. lia.
        -- destruct Z1; simpl in *; [lia | discriminate].
        -- assumption.
Qed.

End QuickXplain.

(** ** Traces *)

Lemma oracle_calls_app t1 t2 :
  oracle_calls (t1 ++ t2) = (oracle_calls t1 + oracle_calls t2)%nat.
Proof. unfold oracle_calls. now rewrite filter_app, length_app. Qed.

Lemma waxp_calls_app t1 t2 :
  waxp_calls (t1 ++ t2) = (waxp_calls t1 + waxp_calls t2)%nat.
Proof. unfold waxp_calls. now rewrite filter_app, length_app. Qed.

Lemma iterations_app t1 t2 :
  iterations (t1 ++ t2) = (iterations t1 + iterations t2)%nat.
Proof. unfold iterations. now rewrite filter_app, length_app. Qed.

Lemma silent_app t1 t2 : silent (t1 ++ t2) = silent t1 ++ silent t2.
Proof. unfold silent. apply filter_app. Qed.

(** What a trace of prints counts for. *)
Lemma prints_count t :
  forallb is_print t = true ->
  oracle_calls t = O /\ waxp_calls t = O /\ iterations t = O /\ silent t = [].
Proof.
  induction t as [|e t IH]; simpl; [auto|].
  intros H. apply andb_true_iff in H. destruct H as [He Ht].
  destruct (IH Ht) as (H1 & H2 & H3 & H4).
  destruct e; try discriminate.
  unfold oracle_calls, waxp_calls, iterations, silent in *. simpl. auto.
Qed.

Lemma waxp_trace_count qs :
  oracle_calls (map CallWaxp qs) = length qs /\
  waxp_calls (map CallWaxp qs) = length qs /\
  iterations (map CallWaxp qs) = O.
Proof.
  unfold oracle_calls, waxp_calls, iterations.
  induction qs as [|q qs (H1 & H2 & H3)]; simpl; auto.
Qed.

Lemma wcxp_trace_count qs :
  oracle_calls (map CallWcxp qs) = length qs /\
  waxp_calls (map CallWcxp qs) = O /\
  iterations (map CallWcxp qs) = O.
Proof.
  unfold oracle_calls, waxp_calls, iterations.
  induction qs as [|q qs (H1 & H2 & H3)]; simpl; auto.
Qed.

(** ** A minimizer followed by its report *)

Section Report.

Variable self : LogicXplainer.
Variable msg : list Z -> message.
Variable m : M (list Z).

Local Abbreviation reported := (xp <- m ;; report self (msg xp) ;; ret xp).

Lemma reported_val t A :
  m = (t, Ret A) ->
  exists tp, reported = (t ++ tp, Ret A) /\ forallb is_print tp = true.
Proof.
  intros E. rewrite (bind_val _ _ _ _ E).
  destruct (report_val self (msg A)) as (tp & Er & Hp).
  rewrite (bind_val _ _ _ _ Er). simpl.
  exists tp. now rewrite app_nil_r.
Qed.

Lemma reported_inv t' A :
  reported = (t', Ret A) ->
  exists t tp, m = (t, Ret A) /\ t' = t ++ tp /\ forallb is_print tp = true.
Proof.
  intros H.
  apply bind_ret_inv in H. destruct H as (t & A' & t2 & E & H & ->).
  destruct (report_val self (msg A')) as (tp & Er & Hp).
  rewrite (bind_val _ _ _ _ Er) in H. simpl in H. rewrite app_nil_r in H.
  inversion H; subst. eexists _, _. repeat split; eauto.
Qed.

Lemma reported_diverge t :
  m = (t, Diverge) -> reported = (t, Diverge).
Proof. intros ->. reflexivity. Qed.

End Report.

(** ** The deletion based minimizers as methods *)

Lemma axp_del_total self S :
  exists qs tp A,
    axp_del self S = (map CallWaxp qs ++ tp, Ret A) /\
    del_loop (call_waxp self) S S = (map CallWaxp qs, Ret A) /\
    length qs = length S /\ forallb is_print tp = true /\ sublist A S.
Proof.
  destruct (del_loop_total CallWaxp (waxp self) S S) as (qs & A & E & Hlen & Hsub).
  { intros x. lia. }
  destruct (reported_val self MsgAXpDel _ _ _ E) as (tp & E' & Hp).
  exists qs, tp, A. auto.
Qed.

Lemma cxp_del_total self S :
  exists qs tp A,
    cxp_del self S = (map CallWcxp qs ++ tp, Ret A) /\
    del_loop (call_wcxp self) S S = (map CallWcxp qs, Ret A) /\
    length qs = length S /\ forallb is_print tp = true /\ sublist A S.
Proof.
  destruct (del_loop_total CallWcxp (wcxp self) S S) as (qs & A & E & Hlen & Hsub).
  { intros x. lia. }
  destruct (reported_val self MsgCXpDel _ _ _ E) as (tp & E' & Hp).
  exists qs, tp, A. auto.
Qed.

Lemma axp_qxp_total self depth S :
  S <> [] -> (length S <= depth)%nat ->
  exists qs tp A,
    axp_qxp self depth S = (map CallWaxp qs ++ tp, Ret A) /\
    qxp_recur (call_waxp self) depth [] S false = (map CallWaxp qs, Ret A) /\
    forallb is_print tp = true /\ sublist A S.
Proof.
  intros Hne Hlen.
  destruct (qxp_recur_total CallWaxp (waxp self) depth [] S false Hne Hlen)
    as (qs & A & E).
  destruct (reported_val self MsgAXpQxp _ _ _ E) as (tp & E' & Hp).
  exists qs, tp, A. repeat split; auto.
  eapply qxp_recur_sublist; eassumption.
Qed.

Lemma cxp_qxp_total self depth S :
  S <> [] -> (length S <= depth)%nat ->
  exists qs tp A,
    cxp_qxp self depth S = (map CallWcxp qs ++ tp, Ret A) /\
    qxp_recur (call_wcxp self) depth [] S false = (map CallWcxp qs, Ret A) /\
    forallb is_print tp = true /\ sublist A S.
Proof.
  intros Hne Hlen.
  destruct (qxp_recur_total CallWcxp (wcxp self) depth [] S false Hne Hlen)
    as (qs & A & E).
  destruct (reported_val self MsgCXpQxp _ _ _ E) as (tp & E' & Hp).
  exists qs, tp, A. repeat split; auto.
  eapply qxp_recur_sublist; eassumption.
Qed.

(** The scenario oracle is monotone. *)
Lemma mem_incl x T T' : incl T T' -> mem x T = true -> mem x T' = true.
Proof. rewrite !mem_In. auto. Qed.

Lemma scenario_waxp_monotone : monotone scenario_waxp.
Proof.
  intros T T' Hincl. unfold scenario_waxp.
  rewrite !orb_true_iff, !andb_true_iff.
  intros [H|[H2 H3]]; [left | right; split]; eapply mem_incl; eassumption.
Qed.

(** ** Minimality of the explanations computed *)

(** X17.  What the two abductive minimizers guarantee.  For a monotone
    oracle [waxp] and a
    list [S] with [waxp(S)] true, [axp_del(S)] returns a sublist [A] of [S]
    with [waxp(A)] true from which no element can be removed; [axp_qxp(S)]
    returns such a list too, provided [S] is not empty and [waxp([])] is
    false (the recursion is then no deeper than the length of [S]). *)
Theorem minimizers_minimal self S depth :
  monotone (waxp self) ->
  waxp self S = true ->
  (exists t A,
      axp_del self S = (t, Ret A) /\
      sublist A S /\ waxp self A = true /\ minimal (waxp self) A) /\
  (S <> [] -> waxp self [] = false -> (length S <= depth)%nat ->
   exists t A,
     axp_qxp self depth S = (t, Ret A) /\
     sublist A S /\ waxp self A = true /\ minimal (waxp self) A).
Proof.
  intros Hmono HS. split.
  - destruct (axp_del_total self S) as (qs & tp & A & E & El & _ & _ & Hsub).
    destruct (del_loop_minimal CallWaxp (waxp self) Hmono S S _ A El
                (del_inv_init _ S HS)) as (HA & Hmin & _).
    eauto 10.
  - intros Hne H0 Hlen.
    destruct (axp_qxp_total self depth S Hne Hlen) as (qs & tp & A & E & Er & _ & Hsub).
    exists (map CallWaxp qs ++ tp), A. repeat split; auto.
    + apply (qxp_recur_weak CallWaxp (waxp self) Hmono _ _ _ _ _ _ Er HS).
    + intros x Hx.
      apply (qxp_recur_minimal CallWaxp (waxp self) Hmono _ _ _ _ _ _ Er HS Hne
               (fun _ => H0) x Hx).
Qed.

Lemma minimizers_minimal_witness :
  (exists t A,
      axp_del (scenario 0) [1; 2; 3] = (t, Ret A) /\
      sublist A [1; 2; 3] /\ scenario_waxp A = true /\ minimal scenario_waxp A) /\
  (exists t A,
      axp_qxp (scenario 0) 3 [1; 2; 3] = (t, Ret A) /\
      sublist A [1; 2; 3] /\ scenario_waxp A = true /\ minimal scenario_waxp A).
Proof.
  destruct (minimizers_minimal (scenario 0) [1; 2; 3] 3
              scenario_waxp_monotone eq_refl) as [Hdel Hqxp].
  split.
  - exact Hdel.
  - apply Hqxp; [discriminate | reflexivity | simpl; lia].
Defined.

(** C1, at the one candidate 5 with an oracle that holds on every list
    (also on the empty one), which is monotone.  [axp_qxp([5])] returns
    [[5]] without asking the oracle: the result is a sublist on which the
    oracle holds, but it is not subset-minimal, since the oracle holds on
    the list without 5 as well.  [axp_del([5])] returns the empty list,
    which is minimal. *)
Theorem axp_qxp_not_minimal :
  monotone (waxp constant_explainer) /\
  waxp constant_explainer [5] = true /\
  axp_qxp constant_explainer 1 [5] = ([], Ret [5]) /\
  (forall depth t A,
      axp_qxp constant_explainer depth [5] = (t, Ret A) ->
      A = [5] /\ waxp constant_explainer (remove1 5 A) = true /\
      ~ minimal (waxp constant_explainer) A) /\
  axp_del constant_explainer [5] = ([CallWaxp []], Ret []) /\
  minimal (waxp constant_explainer) [].
Proof.
  split; [intros T T' _ _; reflexivity|].
  split; [reflexivity|]. split; [reflexivity|].
  split; [|split; [reflexivity | intros x []]].
  intros [|depth] t A H; [discriminate|].
  simpl in H. inversion H; subst. split; [reflexivity|].
  split; [reflexivity|].
  intros Hmin. specialize (Hmin 5 (or_introl eq_refl)). discriminate.
Qed.

(** ** The split of QuickXplain *)

(** C4, as the code has it.  With two candidates or more, [Z] is split
    into a first part [Z1] of floor(|Z|/2) elements and a second part [Z2]
    of ceil(|Z|/2) elements, and (unless the grown base already satisfies
    the oracle) the part [Z2] is processed first, with the base [B + Z1];
    then [Z1] with the base [B + Q2].  This holds for any oracle, so for
    [axp_qxp] and for [cxp_qxp]. *)
Theorem qxp_split_sizes Z_ :
  (2 <= length Z_)%nat ->
  let Z1 := fst (qxp_split Z_) in
  let Z2 := snd (qxp_split Z_) in
  Z_ = Z1 ++ Z2 /\
  length Z1 = Nat.div (length Z_) 2 /\
  length Z2 = Nat.div (length Z_ + 1) 2 /\
  forall oracle depth B newB,
    qxp_recur oracle (S depth) B Z_ newB =
    (stop <- (if newB then oracle B else ret false) ;;
     if stop then ret []
     else
       Q2 <- qxp_recur oracle depth (B ++ Z1) Z2 (Nat.ltb 0 (length Z1)) ;;
       Q1 <- qxp_recur oracle depth (B ++ Q2) Z1 (Nat.ltb 0 (length Q2)) ;;
       ret (Q1 ++ Q2)).
Proof.
  intros H Z1 Z2. subst Z1 Z2.
  destruct (qxp_split_length Z_) as [E1 E2].
  repeat split.
  - symmetry. apply qxp_split_app.
  - assumption.
  - rewrite E2.
    pose proof (Nat.div_mod_eq (length Z_) 2) as D.
    pose proof (Nat.mod_upper_bound (length Z_) 2) as U.
    pose proof (Nat.div_mod_eq (length Z_ + 1) 2) as D'.
    pose proof (Nat.mod_upper_bound (length Z_ + 1) 2) as U'.
    lia.
  - intros oracle depth B newB. cbn [qxp_recur].
    assert (Hne : Nat.eqb (length Z_) 1 = false) by (apply Nat.eqb_neq; lia).
    rewrite Hne. destruct (qxp_split Z_) as [Z1 Z2]. reflexivity.
Qed.

Lemma qxp_split_sizes_witness :
  length (fst (qxp_split [1; 2; 3])) = 1%nat /\
  length (snd (qxp_split [1; 2; 3])) = 2%nat.
Proof.
  destruct (qxp_split_sizes [1; 2; 3]) as (_ & H1 & H2 & _).
  - simpl. lia.
  - split; [exact H1 | exact H2].
Defined.

(** Three candidates: the first part has one element, not two. *)
Lemma qxp_split_first_half_smaller :
  qxp_split [1; 2; 3] = ([1], [2; 3]) /\
  length (fst (qxp_split [1; 2; 3])) <> Nat.div (3 + 1) 2 /\
  length (snd (qxp_split [1; 2; 3])) <> Nat.div 3 2.
Proof.
  split; [reflexivity|]. split; simpl; lia.
Qed.

(** ** Scenario 1 *)

(** C5, as the code has it.  With the oracle of scenario 1, whatever the
    verbosity, [axp_del([1, 2, 3])] returns [[2, 3]]: the feature 1 is
    visited first and can be removed, since 2 and 3 remain. *)
Theorem axp_del_scenario v :
  snd (axp_del (scenario v) [1; 2; 3]) = Ret [2; 3] /\
  silent (fst (axp_del (scenario v) [1; 2; 3])) =
  [CallWaxp [2; 3]; CallWaxp [3]; CallWaxp [2]].
Proof.
  unfold axp_del.
  assert (E : del_loop (call_waxp (scenario v)) [1; 2; 3] [1; 2; 3] =
              ([CallWaxp [2; 3]; CallWaxp [3]; CallWaxp [2]], Ret [2; 3]))
    by reflexivity.
  destruct (reported_val (scenario v) MsgAXpDel _ _ _ E) as (tp & -> & Hp).
  cbn [fst snd]. split; [reflexivity|].
  rewrite silent_app. destruct (prints_count tp Hp) as (_ & _ & _ & ->).
  reflexivity.
Qed.

(** The result is not the set with the one element 1. *)
Lemma axp_del_scenario_not_1 :
  fst (axp_del (scenario 0) [1; 2; 3]) =
    [CallWaxp [2; 3]; CallWaxp [3]; CallWaxp [2]] /\
  snd (axp_del (scenario 0) [1; 2; 3]) = Ret [2; 3] /\
  snd (axp_del (scenario 0) [1; 2; 3]) <> Ret [1] /\
  ~ incl [2; 3] [1].
Proof.
  repeat split; try discriminate.
  intros H. destruct (H 2 (or_introl eq_refl)) as [E|[]]. discriminate.
Qed.

(** ** The verifiers *)

Section Verifier.

Variable ev : list Z -> event.
Variable w : list Z -> bool.

(** The loop answers whether every removal of one element visited breaks
    the oracle. *)
Lemma check_loop_val xp fix_ its :
  incl its fix_ ->
  exists t,
    check_loop (ask ev w) xp its fix_ =
    (t, Ret (forallb (fun i => negb (w (remove1 i fix_))) its)).
Proof.
  induction its as [|i its IH]; intros Hincl.
  - exists []. reflexivity.
  - cbn [check_loop forallb].
    rewrite (bind_val _ _ _ _ (list_remove_in i fix_ (Hincl i (or_introl eq_refl)))).
    rewrite (bind_val _ _ _ _ (ask_val ev w (remove1 i fix_))).
    cbn [fst snd]. destruct (w (remove1 i fix_)).
    + eexists. reflexivity.
    + destruct IH as (t & ->).
      { intros y Hy. apply Hincl. now right. }
      eexists. reflexivity.
Qed.

Lemma check_val mk xp :
  exists t,
    (b <- ask ev w xp ;;
     if negb b then tell (Print (mk xp)) ;; ret false
     else check_loop (ask ev w) xp xp xp) =
    (t, Ret (w xp && forallb (fun i => negb (w (remove1 i xp))) xp)).
Proof.
  rewrite (bind_val _ _ _ _ (ask_val ev w xp)).
  destruct (w xp); cbn [negb andb].
  - destruct (check_loop_val xp xp xp (incl_refl _)) as (t & ->).
    eexists. reflexivity.
  - eexists. reflexivity.
Qed.

Lemma check_answer xp :
  w xp && forallb (fun i => negb (w (remove1 i xp))) xp = true <->
  w xp = true /\ minimal w xp.
Proof.
  rewrite andb_true_iff, forallb_forall. unfold minimal.
  split; intros [H1 H2]; (split; [assumption|]); intros x Hx.
  - apply negb_true_iff. auto.
  - apply negb_true_iff. auto.
Qed.

End Verifier.

(** C6.  [check_axp(a)] returns, and it returns true exactly when
    [waxp(a)] is true and [waxp] is false on [a] without [i], for every
    element [i] of [a] (the first occurrence of [i] removed, as
    [list.remove] does); [check_cxp] likewise with [wcxp]. *)
Theorem check_axp_cxp_correct self xp :
  (exists t b,
      check_axp self xp = (t, Ret b) /\
      (b = true <-> waxp self xp = true /\
                    forall i, In i xp -> waxp self (remove1 i xp) = false)) /\
  (exists t b,
      check_cxp self xp = (t, Ret b) /\
      (b = true <-> wcxp self xp = true /\
                    forall i, In i xp -> wcxp self (remove1 i xp) = false)).
Proof.
  split.
  - destruct (check_val CallWaxp (waxp self) MsgNotWeakAXp xp) as (t & E).
    exists t. eexists. split; [exact E|]. apply check_answer.
  - destruct (check_val CallWcxp (wcxp self) MsgNotWeakCXp xp) as (t & E).
    exists t. eexists. split; [exact E|]. apply check_answer.
Qed.

Lemma check_axp_cxp_correct_witness :
  exists t b,
    check_axp (scenario 0) [1; 2] = (t, Ret b) /\
    (b = true <-> scenario_waxp [1; 2] = true /\
                  forall i, In i [1; 2] -> scenario_waxp (remove1 i [1; 2]) = false).
Proof.
  exact (proj1 (check_axp_cxp_correct (scenario 0) [1; 2])).
Defined.

(** ** Oracle calls of the deletion based minimizer *)

(** C8.  [axp_del(S)] returns after exactly one call of [waxp] per element
    of [S] (and no call of [wcxp]); on a list [[x]] of one element with
    [waxp([x])] true and [waxp([])] false it returns [[x]], after one
    call. *)
Theorem axp_del_oracle_calls self S :
  exists t A,
    axp_del self S = (t, Ret A) /\
    oracle_calls t = length S /\
    waxp_calls t = length S /\
    (forall x, S = [x] -> waxp self [x] = true -> waxp self [] = false ->
               A = [x] /\ oracle_calls t = 1%nat).
Proof.
  destruct (axp_del_total self S) as (qs & tp & A & E & El & Hlen & Hp & _).
  exists (map CallWaxp qs ++ tp), A.
  destruct (prints_count tp Hp) as (P1 & P2 & _).
  destruct (waxp_trace_count qs) as (Q1 & Q2 & _).
  assert (Hcalls : oracle_calls (map CallWaxp qs ++ tp) = length S).
  { rewrite oracle_calls_app, P1, Q1. lia. }
  repeat split; auto.
  - rewrite waxp_calls_app, P2, Q2. lia.
  - subst S. cbn in El. unfold call_waxp, ask in El.
    rewrite Z.eqb_refl in El. cbn in El. rewrite H1 in El. now inversion El.
  - subst S. exact Hcalls.
Qed.

Lemma axp_del_oracle_calls_witness :
  exists t,
    axp_del (scenario 0) [1] = (t, Ret [1]) /\ oracle_calls t = 1%nat.
Proof.
  destruct (axp_del_oracle_calls (scenario 0) [1]) as (t & A & E & H1 & H2 & H3).
  destruct (H3 1 eq_refl eq_refl eq_refl) as [-> Hc].
  exists t. split; assumption.
Defined.

(** ** The empty list of candidates *)

(** C10.  On the empty list [axp_del] and [cxp_del] return the empty list
    without any oracle call, while the recursion of [axp_qxp] and [cxp_qxp]
    does not come to an end, whatever depth it is allowed: [qxp_recur] on
    (B, [], False) calls itself on the same arguments. *)
Theorem empty_candidates self :
  (exists t, axp_del self [] = (t, Ret []) /\ oracle_calls t = O) /\
  (exists t, cxp_del self [] = (t, Ret []) /\ oracle_calls t = O) /\
  (forall depth B,
      qxp_recur (call_waxp self) depth B [] false = ([], Diverge) /\
      qxp_recur (call_wcxp self) depth B [] false = ([], Diverge)) /\
  (forall depth,
      axp_qxp self depth [] = ([], Diverge) /\
      cxp_qxp self depth [] = ([], Diverge)) /\
  (forall oracle depth B,
      qxp_recur oracle (S depth) B [] false =
      (Q2 <- qxp_recur oracle depth B [] false ;;
       Q1 <- qxp_recur oracle depth (B ++ Q2) [] (Nat.ltb 0 (length Q2)) ;;
       ret (Q1 ++ Q2))).
Proof.
  repeat split.
  - destruct (reported_val self MsgAXpDel (ret []) [] [] eq_refl) as (tp & E & Hp).
    exists tp. split; [exact E|]. now destruct (prints_count tp Hp).
  - destruct (reported_val self MsgCXpDel (ret []) [] [] eq_refl) as (tp & E & Hp).
    exists tp. split; [exact E|]. now destruct (prints_count tp Hp).
  - apply (qxp_recur_empty CallWaxp).
  - apply (qxp_recur_empty CallWcxp).
  - apply reported_diverge. apply (qxp_recur_empty CallWaxp).
  - apply reported_diverge. apply (qxp_recur_empty CallWcxp).
  - intros oracle depth B. cbn [qxp_recur]. rewrite bind_ret_l.
    cbn. rewrite app_nil_r. reflexivity.
Qed.

(** ** The verbosity does not interfere with the results *)

Lemma same_result_refl {A} (m : M A) : same_result m m.
Proof. split; reflexivity. Qed.

Lemma same_result_bind {A B} (m1 m2 : M A) (f1 f2 : A -> M B) :
  same_result m1 m2 ->
  (forall a, same_result (f1 a) (f2 a)) ->
  same_result (bind m1 f1) (bind m2 f2).
Proof.
  destruct m1 as [t1 o1], m2 as [t2 o2]. intros [Ho Ht] Hf.
  cbn [fst snd] in *. subst o2.
  destruct o1 as [a| |]; cbn [bind]; [|split; cbn [fst snd]; auto..].
  specialize (Hf a). destruct (f1 a) as [u1 p1], (f2 a) as [u2 p2].
  destruct Hf as [Hp Hu]. cbn [fst snd] in *.
  split; cbn [fst snd]; [assumption|]. rewrite !silent_app. congruence.
Qed.

Lemma report_same self v1 v2 msg :
  same_result (report (with_verbose self v1) msg)
              (report (with_verbose self v2) msg).
Proof.
  destruct (report_val (with_verbose self v1) msg) as (t1 & -> & H1).
  destruct (report_val (with_verbose self v2) msg) as (t2 & -> & H2).
  destruct (prints_count t1 H1) as (_ & _ & _ & E1).
  destruct (prints_count t2 H2) as (_ & _ & _ & E2).
  split; cbn [fst snd]; congruence.
Qed.

Section Verbosity.

Variable self : LogicXplainer.
Variables v1 v2 : Z.

Local Abbreviation self1 := (with_verbose self v1).
Local Abbreviation self2 := (with_verbose self v2).

Lemma reported_same (msg : list Z -> message) (m : M (list Z)) :
  same_result (xp <- m ;; report self1 (msg xp) ;; ret xp)
              (xp <- m ;; report self2 (msg xp) ;; ret xp).
Proof.
  apply same_result_bind; [apply same_result_refl|]. intros xp.
  apply same_result_bind; [apply report_same|]. intros _.
  apply same_result_refl.
Qed.

Lemma axp_del_same S : same_result (axp_del self1 S) (axp_del self2 S).
Proof. apply (reported_same MsgAXpDel). Qed.

Lemma cxp_del_same S : same_result (cxp_del self1 S) (cxp_del self2 S).
Proof. apply (reported_same MsgCXpDel). Qed.

Lemma axp_qxp_same depth S :
  same_result (axp_qxp self1 depth S) (axp_qxp self2 depth S).
Proof. apply (reported_same MsgAXpQxp). Qed.

Lemma cxp_qxp_same depth S :
  same_result (cxp_qxp self1 depth S) (cxp_qxp self2 depth S).
Proof. apply (reported_same MsgCXpQxp). Qed.

Lemma enum_loop_same solve depth feats_idx alg fuel :
  forall vpool clauses axps cxps,
    same_result
      (enum_loop solve self1 depth fuel feats_idx alg vpool clauses axps cxps)
      (enum_loop solve self2 depth fuel feats_idx alg vpool clauses axps cxps).
Proof.
  induction fuel as [|fuel IH]; intros vpool clauses axps cxps.
  - apply same_result_refl.
  - cbn [enum_loop]. destruct (solve clauses) as [model|];
      [|apply same_result_refl].
    apply same_result_bind; [apply same_result_refl|]. intros _.
    apply same_result_bind; [apply same_result_refl|]. intros univ.
    apply same_result_bind; [apply same_result_refl|]. intros [|].
    + apply same_result_bind.
      * destruct (String.eqb alg "del"); [apply cxp_del_same|].
        destruct (String.eqb alg "qxp"); [apply cxp_qxp_same|].
        apply same_result_refl.
      * intros cxp. destruct (new_vars vpool (-1) cxp). apply IH.
    + apply same_result_bind.
      * destruct (String.eqb alg "del"); [apply axp_del_same|].
        destruct (String.eqb alg "qxp"); [apply axp_qxp_same|].
        apply same_result_refl.
      * intros axp. destruct (new_vars vpool 1 axp). apply IH.
Qed.

Lemma enum_same solve depth fuel feats_idx alg :
  same_result (enum solve self1 depth fuel feats_idx alg)
              (enum solve self2 depth fuel feats_idx alg).
Proof.
  unfold enum.
  apply same_result_bind; [apply enum_loop_same|]. intros r.
  apply same_result_bind; [|intros; apply same_result_refl].
  cbn [verbose with_verbose].
  destruct (v1 =? 0), (v2 =? 0); split; reflexivity.
Qed.

End Verbosity.

(** C9.  The same explainer run with two verbosity levels: each of
    [axp_del], [axp_qxp], [cxp_del], [cxp_qxp] and [enum] ends in the same
    way (the same value returned, or the same failure) after the same calls
    of the oracles and of the solver; only what is printed differs.
    [check_axp] and [check_cxp] do not read the verbosity at all. *)
Theorem verbose_noninterference self v1 v2 :
  (forall S, same_result (axp_del (with_verbose self v1) S)
                         (axp_del (with_verbose self v2) S)) /\
  (forall depth S, same_result (axp_qxp (with_verbose self v1) depth S)
                               (axp_qxp (with_verbose self v2) depth S)) /\
  (forall S, same_result (cxp_del (with_verbose self v1) S)
                         (cxp_del (with_verbose self v2) S)) /\
  (forall depth S, same_result (cxp_qxp (with_verbose self v1) depth S)
                               (cxp_qxp (with_verbose self v2) depth S)) /\
  (forall solve depth fuel feats_idx alg,
      same_result (enum solve (with_verbose self v1) depth fuel feats_idx alg)
                  (enum solve (with_verbose self v2) depth fuel feats_idx alg)) /\
  (forall xp, check_axp (with_verbose self v1) xp =
              check_axp (with_verbose self v2) xp) /\
  (forall xp, check_cxp (with_verbose self v1) xp =
              check_cxp (with_verbose self v2) xp).
Proof.
  repeat split.
  - apply axp_del_same.
  - apply axp_del_same.
  - apply axp_qxp_same.
  - apply axp_qxp_same.
  - apply cxp_del_same.
  - apply cxp_del_same.
  - apply cxp_qxp_same.
  - apply cxp_qxp_same.
  - apply enum_same.
  - apply enum_same.
Qed.

(** ** The variable pool *)

Lemma index_of_Some name pool k :
  index_of name pool = Some k -> nth_error pool k = Some name.
Proof.
  revert k. induction pool as [|y pool IH]; simpl; intros k H; [discriminate|].
  destruct (Z.eqb name y) eqn:E.
  - apply Z.eqb_eq in E. inversion H; subst. reflexivity.
  - destruct (index_of name pool) as [k'|]; [|discriminate].
    inversion H; subst. simpl. auto.
Qed.

Lemma index_of_None name pool : index_of name pool = None -> ~ In name pool.
Proof.
  induction pool as [|y pool IH]; simpl; intros H; [tauto|].
  destruct (Z.eqb name y) eqn:E; [discriminate|].
  apply Z.eqb_neq in E.
  destruct (index_of name pool); [discriminate|].
  intros [->|Hin]; [congruence | now apply IH].
Qed.

Lemma index_of_In name pool :
  In name pool -> exists k, index_of name pool = Some k.
Proof.
  intros Hin. destruct (index_of name pool) as [k|] eqn:E; [eauto|].
  now apply index_of_None in E.
Qed.

(** In a pool without repetition the position of an object is its index. *)
Lemma index_of_nth pool k name :
  NoDup pool -> nth_error pool k = Some name -> index_of name pool = Some k.
Proof.
  intros Hnd. revert k. induction Hnd as [|y pool Hy Hnd IH]; intros k H.
  - destruct k; discriminate.
  - simpl. destruct k as [|k]; simpl in H.
    + inversion H; subst. now rewrite Z.eqb_refl.
    + destruct (Z.eqb name y) eqn:E.
      * apply Z.eqb_eq in E. subst. apply nth_error_In in H. tauto.
      * now rewrite (IH _ H).
Qed.

Lemma vpool_id_known pool i :
  In i pool -> vpool_id pool i = (var_of pool i, pool).
Proof.
  intros Hin. unfold var_of, vpool_id.
  destruct (index_of_In _ _ Hin) as (k & ->). reflexivity.
Qed.

Lemma var_of_range pool i :
  In i pool -> 1 <= var_of pool i <= Z.of_nat (length pool).
Proof.
  intros Hin. unfold var_of, vpool_id.
  destruct (index_of_In _ _ Hin) as (k & E). rewrite E. cbn [fst].
  apply index_of_Some in E.
  assert (k < length pool)%nat by (apply nth_error_Some; congruence).
  lia.
Qed.

Lemma vpool_obj_var_of pool i :
  In i pool -> vpool_obj pool (var_of pool i) = Some i.
Proof.
  intros Hin. unfold var_of, vpool_id, vpool_obj.
  destruct (index_of_In _ _ Hin) as (k & E). rewrite E. cbn [fst].
  apply index_of_Some in E.
  replace (1 <=? Z.of_nat k + 1) with true by (symmetry; apply Z.leb_le; lia).
  replace (Z.to_nat (Z.of_nat k + 1 - 1)) with k by lia.
  assumption.
Qed.

Lemma vpool_obj_Some pool v i :
  vpool_obj pool v = Some i ->
  1 <= v <= Z.of_nat (length pool) /\ In i pool /\
  (NoDup pool -> v = var_of pool i).
Proof.
  unfold vpool_obj. destruct (1 <=? v) eqn:E; [|discriminate].
  apply Z.leb_le in E. intros H.
  assert (Z.to_nat (v - 1) < length pool)%nat by (apply nth_error_Some; congruence).
  repeat split; try lia.
  - eapply nth_error_In; eassumption.
  - intros Hnd. unfold var_of, vpool_id.
    rewrite (index_of_nth _ _ _ Hnd H). cbn [fst]. lia.
Qed.

Lemma vpool_obj_valid pool v :
  1 <= v <= Z.of_nat (length pool) -> exists i, vpool_obj pool v = Some i.
Proof.
  intros Hv. unfold vpool_obj.
  replace (1 <=? v) with true by (symmetry; apply Z.leb_le; lia).
  destruct (nth_error pool (Z.to_nat (v - 1))) as [i|] eqn:E; [eauto|].
  apply nth_error_None in E. lia.
Qed.

(** Registering the features: every feature gets a variable, no object is
    registered twice. *)
Lemma register_spec feats_idx :
  forall pool,
    NoDup pool ->
    NoDup (register pool feats_idx) /\
    (forall i, In i (register pool feats_idx) <-> In i pool \/ In i feats_idx) /\
    (length (register pool feats_idx) <= length pool + length feats_idx)%nat.
Proof.
  induction feats_idx as [|x feats_idx IH]; intros pool Hnd; cbn [register].
  - repeat split; simpl; auto; try tauto; lia.
  - unfold vpool_id. destruct (index_of x pool) as [k|] eqn:E; cbn [snd].
    + apply index_of_Some, nth_error_In in E.
      destruct (IH pool Hnd) as (H1 & H2 & H3).
      repeat split; auto.
      * rewrite H2. simpl. tauto.
      * rewrite H2. simpl. intros [H|[->|H]]; auto.
      * simpl. lia.
    + apply index_of_None in E.
      destruct (IH (pool ++ [x])) as (H1 & H2 & H3).
      { apply NoDup_app; [assumption | repeat constructor; simpl; tauto |].
        intros y Hy [->|[]]. tauto. }
      repeat split; auto.
      * rewrite H2, in_app_iff. simpl. tauto.
      * rewrite H2, in_app_iff. simpl. tauto.
      * rewrite length_app in H3. simpl in *. lia.
Qed.

(** Asking for the variables of registered features leaves the pool as it
    is. *)
Lemma new_vars_known pool sign xp :
  incl xp pool ->
  new_vars pool sign xp = (map (fun i => sign * var_of pool i) xp, pool).
Proof.
  induction xp as [|i xp IH]; intros Hincl; cbn [new_vars map].
  - reflexivity.
  - rewrite (vpool_id_known pool i) by (apply Hincl; now left).
    rewrite IH by (intros y Hy; apply Hincl; now right).
    reflexivity.
Qed.

(** ** Reading a model *)

Lemma read_model_decode pool model :
  forall univ0 t univ,
    read_model pool model univ0 = (t, Ret univ) ->
    t = [] /\ univ = univ0 ++ decode pool model.
Proof.
  induction model as [|lit model IH]; intros univ0 t univ H; cbn in H.
  - inversion H. now rewrite app_nil_r.
  - destruct (vpool_obj pool (Z.abs lit)) as [i|] eqn:E; [|discriminate].
    destruct (IH _ _ _ H) as [-> ->]. split; [reflexivity|].
    cbn [decode flat_map]. fold (decode pool model).
    destruct (0 <? lit) eqn:Hl.
    + apply Z.ltb_lt in Hl. rewrite Z.abs_eq in E by lia. rewrite E.
      now rewrite <- app_assoc.
    + now rewrite app_nil_r.
Qed.

Lemma read_model_total pool model :
  (forall lit, In lit model -> 1 <= Z.abs lit <= Z.of_nat (length pool)) ->
  forall univ0, read_model pool model univ0 = ([], Ret (univ0 ++ decode pool model)).
Proof.
  induction model as [|lit model IH]; intros Hv univ0; cbn [read_model].
  - cbn. now rewrite app_nil_r.
  - destruct (vpool_obj_valid pool (Z.abs lit)) as (i & E).
    { apply Hv. now left. }
    rewrite E. rewrite IH by (intros; apply Hv; now right).
    cbn [decode flat_map]. fold (decode pool model).
    destruct (0 <? lit) eqn:Hl.
    + apply Z.ltb_lt in Hl. rewrite Z.abs_eq in E by lia. rewrite E.
      now rewrite <- app_assoc.
    + now rewrite app_nil_r.
Qed.

Lemma decode_In pool model i :
  In i (decode pool model) <->
  exists lit, In lit model /\ 0 < lit /\ vpool_obj pool lit = Some i.
Proof.
  unfold decode. rewrite in_flat_map. split.
  - intros (lit & Hin & H). exists lit. split; [assumption|].
    destruct (0 <? lit) eqn:Hl; [|destruct H].
    apply Z.ltb_lt in Hl. split; [assumption|].
    destruct (vpool_obj pool lit); [|destruct H].
    destruct H as [->|[]]. reflexivity.
  - intros (lit & Hin & Hl & E). exists lit. split; [assumption|].
    apply Z.ltb_lt in Hl. rewrite Hl, E. now left.
Qed.

(** A registered feature is declared universal exactly when its variable
    is a literal of the model. *)
Lemma decode_var_of pool model i :
  NoDup pool -> In i pool ->
  (In i (decode pool model) <-> In (var_of pool i) model).
Proof.
  intros Hnd Hin. rewrite decode_In. split.
  - intros (lit & Hlit & Hl & E).
    destruct (vpool_obj_Some _ _ _ E) as (_ & _ & Hv).
    now rewrite <- (Hv Hnd).
  - intros H. exists (var_of pool i). split; [assumption|].
    split; [pose proof (var_of_range pool i Hin); lia|].
    now apply vpool_obj_var_of.
Qed.

Lemma decode_incl pool model : incl (decode pool model) pool.
Proof.
  intros i Hi. apply decode_In in Hi. destruct Hi as (lit & _ & _ & E).
  now destruct (vpool_obj_Some _ _ _ E) as (_ & H & _).
Qed.

Lemma decode_length pool model :
  (length (decode pool model) <= length model)%nat.
Proof.
  induction model as [|lit model IH]; cbn [decode flat_map]; [simpl; lia|].
  fold (decode pool model). rewrite length_app.
  destruct (0 <? lit); [destruct (vpool_obj pool lit)|]; simpl; lia.
Qed.

(** ** Models of the solver *)

Lemma NoDup_map_eq {A B} (f : A -> B) (l : list A) x y :
  NoDup (map f l) -> In x l -> In y l -> f x = f y -> x = y.
Proof.
  induction l as [|z l IH]; simpl; intros Hnd Hx Hy E; [tauto|].
  inversion Hnd as [|? ? Hz Hnd']; subst.
  destruct Hx as [->|Hx], Hy as [->|Hy]; auto.
  - exfalso. apply Hz. rewrite E. now apply in_map.
  - exfalso. apply Hz. rewrite <- E. now apply in_map.
Qed.

Lemma variables_In k v : In v (variables k) <-> 1 <= v <= Z.of_nat k.
Proof.
  unfold variables. rewrite in_map_iff. split.
  - intros (n & <- & Hn). apply in_seq in Hn. lia.
  - intros H. exists (Z.to_nat v). split; [lia|]. apply in_seq. lia.
Qed.

Lemma variables_NoDup k : NoDup (variables k).
Proof.
  unfold variables. generalize (seq_NoDup k 1).
  induction 1 as [|n l Hn Hl IH]; simpl; constructor; [|assumption].
  rewrite in_map_iff. intros (m & E & Hm).
  apply Nat2Z.inj in E. now subst.
Qed.

(** A model has valid literals and never a literal and its opposite. *)
Lemma model_literals k model l :
  map Z.abs model = variables k ->
  In l model ->
  1 <= Z.abs l <= Z.of_nat k /\ ~ In (- l) model.
Proof.
  intros Hshape Hl.
  assert (Hr : 1 <= Z.abs l <= Z.of_nat k).
  { apply variables_In. rewrite <- Hshape. now apply in_map. }
  split; [assumption|]. intros Hn.
  assert (E : l = - l).
  { apply (NoDup_map_eq Z.abs model); auto.
    - rewrite Hshape. apply variables_NoDup.
    - now rewrite Z.abs_opp. }
  lia.
Qed.

Lemma model_length k model :
  map Z.abs model = variables k -> length model = k.
Proof.
  intros H. apply (f_equal (@length Z)) in H.
  unfold variables in H. now rewrite !length_map, length_seq in H.
Qed.

(** The clauses mention no variable beyond [n]. *)
Lemma nof_vars_le n clauses :
  (forall c l, In c clauses -> In l c -> Z.abs l <= Z.of_nat n) ->
  (nof_vars clauses <= n)%nat.
Proof.
  unfold nof_vars. induction clauses as [|c clauses IH]; intros H; simpl; [lia|].
  assert (Hc : forall l, In l c -> Z.abs l <= Z.of_nat n)
    by (intros l Hl; apply (H c l); [now left | assumption]).
  assert (IH' := IH (fun c' l Hc' Hl => H c' l (or_intror Hc') Hl)).
  clear H IH. induction c as [|l c IHc]; simpl; [assumption|].
  assert (Z.abs l <= Z.of_nat n) by (apply Hc; now left).
  assert (IHc' := IHc (fun l' Hl' => Hc l' (or_intror Hl'))).
  lia.
Qed.

(** ** Collections without repeated explanation *)

Lemma no_later_superset_app l x :
  no_later_superset l ->
  (forall a, In a l -> ~ incl a x) ->
  no_later_superset (l ++ [x]).
Proof.
  intros Hl Hx i j a b Hij Ha Hb.
  assert (Hj : (j < length (l ++ [x]))%nat) by (apply nth_error_Some; congruence).
  rewrite length_app in Hj. simpl in Hj.
  rewrite nth_error_app1 in Ha by lia.
  destruct (Nat.eq_dec j (length l)) as [->|Hne].
  - rewrite nth_error_app2, Nat.sub_diag in Hb by lia. inversion Hb; subst.
    apply Hx. eapply nth_error_In; eassumption.
  - rewrite nth_error_app1 in Hb by lia. exact (Hl i j a b Hij Ha Hb).
Qed.

Lemma no_later_superset_distinct l : no_later_superset l -> distinct_sets l.
Proof.
  intros H i j a b Hij Ha Hb [Hab Hba].
  destruct (Nat.lt_ge_cases i j) as [Hlt|Hge].
  - exact (H i j a b Hlt Ha Hb Hab).
  - assert (Hlt : (j < i)%nat) by lia. exact (H j i b a Hlt Hb Ha Hba).
Qed.

Lemma no_later_superset_nil : no_later_superset [].
Proof. intros i j a b _ H. destruct i; discriminate. Qed.

(** ** What a minimizer returns, when it returns *)

Section Returned.

Variable self : LogicXplainer.
Variable ev : list Z -> event.
Variable w : list Z -> bool.
Variable msg : list Z -> message.

Lemma del_loop_ret its :
  forall fix_ t A,
    del_loop (ask ev w) its fix_ = (t, Ret A) ->
    sublist A fix_ /\ (w fix_ = true -> w A = true).
Proof.
  induction its as [|i its IH]; intros fix_ t A H.
  - inversion H; subst. split; [apply sublist_refl | auto].
  - destruct (in_dec Z.eq_dec i fix_) as [Hin|Hout].
    + rewrite (del_loop_step _ _ _ _ _ Hin) in H.
      assert (E : del_loop (ask ev w) its
                    (if w (remove1 i fix_) then remove1 i fix_ else fix_) =
                  (tl t, Ret A)).
      { inversion H; subst. apply surjective_pairing. }
      destruct (IH _ _ _ E) as [Hs Hw].
      destruct (w (remove1 i fix_)) eqn:Ew.
      * split; [|auto].
        eapply sublist_trans; [eassumption | apply remove1_sublist].
      * split; [assumption|auto].
    + cbn [del_loop] in H. rewrite (list_remove_notin _ _ Hout) in H.
      discriminate.
Qed.

Lemma del_reported_ret S t A :
  (xp <- del_loop (ask ev w) S S ;; report self (msg xp) ;; ret xp) = (t, Ret A) ->
  sublist A S /\ (w S = true -> w A = true).
Proof.
  intros H. apply reported_inv in H. destruct H as (t0 & tp & E & _ & _).
  eapply del_loop_ret; eassumption.
Qed.

Lemma qxp_reported_ret depth S t A :
  (xp <- qxp_recur (ask ev w) depth [] S false ;; report self (msg xp) ;; ret xp)
  = (t, Ret A) ->
  sublist A S /\ (monotone w -> w S = true -> w A = true).
Proof.
  intros H. apply reported_inv in H. destruct H as (t0 & tp & E & _ & _).
  split.
  - eapply qxp_recur_sublist; eassumption.
  - intros Hmono HS.
    apply (qxp_recur_weak ev w Hmono _ _ _ _ _ _ E HS).
Qed.

End Returned.

(** ** The enumeration loop, one iteration *)

Section EnumReturn.

Variable solve : list (list Z) -> option (list Z).
Variable self : LogicXplainer.
Variable depth : nat.
Variable feats_idx : list Z.
Variable alg : string.

Local Abbreviation pool := (register [] feats_idx).

Lemma pool_NoDup : NoDup pool.
Proof. apply (register_spec feats_idx [] (NoDup_nil Z)). Qed.

Lemma pool_In i : In i pool <-> In i feats_idx.
Proof.
  destruct (register_spec feats_idx [] (NoDup_nil Z)) as (_ & H & _).
  rewrite H. simpl. tauto.
Qed.

Lemma pool_length : (length pool <= length feats_idx)%nat.
Proof.
  destruct (register_spec feats_idx [] (NoDup_nil Z)) as (_ & _ & H).
  exact H.
Qed.

Lemma complement_In U i :
  In i (complement feats_idx U) <-> In i feats_idx /\ ~ In i U.
Proof.
  unfold complement. rewrite filter_In, negb_true_iff, mem_false. tauto.
Qed.

Lemma minimize_cxp_ret univ t cxp :
  (if String.eqb alg "del" then cxp_del self univ
   else if String.eqb alg "qxp" then cxp_qxp self depth univ
        else raise UnboundLocalError) = (t, Ret cxp) ->
  sublist cxp univ /\
  (monotone (wcxp self) -> wcxp self univ = true -> wcxp self cxp = true).
Proof.
  intros H. destruct (String.eqb alg "del");
    [|destruct (String.eqb alg "qxp"); [|discriminate]].
  - apply (del_reported_ret self CallWcxp (wcxp self) MsgCXpDel) in H.
    destruct H. split; auto.
  - apply (qxp_reported_ret self CallWcxp (wcxp self) MsgCXpQxp) in H.
    exact H.
Qed.

Lemma minimize_axp_ret fix_ t axp :
  (if String.eqb alg "del" then axp_del self fix_
   else if String.eqb alg "qxp" then axp_qxp self depth fix_
        else raise UnboundLocalError) = (t, Ret axp) ->
  sublist axp fix_ /\
  (monotone (waxp self) -> waxp self fix_ = true -> waxp self axp = true).
Proof.
  intros H. destruct (String.eqb alg "del");
    [|destruct (String.eqb alg "qxp"); [|discriminate]].
  - apply (del_reported_ret self CallWaxp (waxp self) MsgAXpDel) in H.
    destruct H. split; auto.
  - apply (qxp_reported_ret self CallWaxp (waxp self) MsgAXpQxp) in H.
    exact H.
Qed.

(** An iteration that leads to a return: either the solver has no model
    and the collections are returned, or it has one, the features of its
    positive literals are [univ], and
    - [wcxp(univ)] holds, a sublist [xp] of [univ] is appended to the
      CXps and the clause of the negated variables of [xp] is added, or
    - [wcxp(univ)] fails, a sublist [xp] of the other features is
      appended to the AXps and the clause of the variables of [xp] is
      added. *)
Lemma enum_loop_inv fuel clauses axps cxps t r :
  enum_loop solve self depth (S fuel) feats_idx alg pool clauses axps cxps
  = (t, Ret r) ->
  (solve clauses = None /\ r = (axps, cxps)) \/
  exists model xp t',
    solve clauses = Some model /\
    let univ := decode pool model in
    (wcxp self univ = true /\
     sublist xp univ /\
     (monotone (wcxp self) -> wcxp self xp = true) /\
     enum_loop solve self depth fuel feats_idx alg pool
               (clauses ++ [map (fun i => -1 * var_of pool i) xp])
               axps (cxps ++ [xp]) = (t', Ret r)) \/
    (wcxp self univ = false /\
     sublist xp (complement feats_idx univ) /\
     (monotone (waxp self) -> waxp self (complement feats_idx univ) = true ->
      waxp self xp = true) /\
     enum_loop solve self depth fuel feats_idx alg pool
               (clauses ++ [map (fun i => 1 * var_of pool i) xp])
               (axps ++ [xp]) cxps = (t', Ret r)).
Proof.
  cbn [enum_loop]. intros H.
  destruct (solve clauses) as [model|].
  2:{ left. split; [reflexivity|]. cbn in H. now inversion H. }
  right. exists model.
  apply bind_ret_inv in H. destruct H as (t1 & [] & t2 & _ & H & ->).
  apply bind_ret_inv in H. destruct H as (t3 & univ & t4 & Er & H & ->).
  apply read_model_decode in Er. destruct Er as [-> Eu]. simpl in Eu. subst univ.
  apply bind_ret_inv in H. destruct H as (t5 & b & t6 & Eb & H & ->).
  cbn in Eb. inversion Eb; subst b t5. clear Eb.
  destruct (wcxp self (decode pool model)) eqn:Hw.
  - apply bind_ret_inv in H. destruct H as (t7 & xp & t8 & Em & H & ->).
    apply minimize_cxp_ret in Em. destruct Em as [Hsub Hweak].
    rewrite new_vars_known in H.
    2:{ intros i Hi. eapply decode_incl, sublist_incl; eassumption. }
    exists xp, t8. split; [reflexivity|]. left. auto.
  - apply bind_ret_inv in H. destruct H as (t7 & xp & t8 & Em & H & ->).
    apply minimize_axp_ret in Em. destruct Em as [Hsub Hweak].
    rewrite new_vars_known in H.
    2:{ intros i Hi. apply pool_In.
        apply (sublist_incl _ _ Hsub), complement_In in Hi. tauto. }
    exists xp, t8. split; [reflexivity|]. right. auto.
Qed.

(** *** Duality *)

Hypothesis waxp_mono : monotone (waxp self).
Hypothesis oracles_dual : dual self feats_idx.

Lemma wcxp_mono : monotone (wcxp self).
Proof.
  intros U U' Hincl. rewrite !oracles_dual, !negb_true_iff.
  apply (monotone_false _ waxp_mono).
  intros i. rewrite !complement_In. intros [H1 H2]. split; auto.
Qed.

(** Every AXp collected is a weak AXp made of features, every CXp
    collected a weak CXp. *)
Lemma enum_loop_weak fuel :
  forall clauses axps cxps t r,
    enum_loop solve self depth fuel feats_idx alg pool clauses axps cxps
    = (t, Ret r) ->
    (forall a, In a axps -> waxp self a = true /\ incl a feats_idx) ->
    (forall c, In c cxps -> wcxp self c = true) ->
    (forall a, In a (fst r) -> waxp self a = true /\ incl a feats_idx) /\
    (forall c, In c (snd r) -> wcxp self c = true).
Proof.
  induction fuel as [|fuel IH]; intros clauses axps cxps t r H Ha Hc.
  - discriminate.
  - apply enum_loop_inv in H.
    destruct H as [[_ ->] | (model & xp & t' & _ & [H|H])].
    + split; assumption.
    + destruct H as (Hw & Hsub & Hweak & H).
      apply (IH _ _ _ _ _ H); [assumption|].
      intros c Hin. apply in_app_iff in Hin. destruct Hin as [Hin|[<-|[]]]; auto.
      apply Hweak, wcxp_mono.
    + destruct H as (Hw & Hsub & Hweak & H).
      apply (IH _ _ _ _ _ H); [|assumption].
      intros a Hin. apply in_app_iff in Hin. destruct Hin as [Hin|[<-|[]]]; auto.
      split.
      * apply Hweak; [assumption|].
        rewrite oracles_dual in Hw. now apply negb_false_iff in Hw.
      * intros i Hi. apply (sublist_incl _ _ Hsub), complement_In in Hi. tauto.
Qed.

(** A weak AXp made of features and a weak CXp have an element in common. *)
Lemma weak_axp_hits_weak_cxp a c :
  waxp self a = true -> incl a feats_idx -> wcxp self c = true ->
  exists x, In x a /\ In x c.
Proof.
  intros Ha Hincl Hc.
  destruct (existsb (fun x => mem x c) a) eqn:E.
  - apply existsb_exists in E. destruct E as (x & Hx & Hm).
    exists x. split; [assumption | now apply mem_In].
  - exfalso. rewrite oracles_dual in Hc. apply negb_true_iff in Hc.
    rewrite (waxp_mono a (complement feats_idx c)) in Hc; [discriminate| |assumption].
    intros x Hx. apply complement_In. split; [auto|].
    intros Hxc. apply mem_In in Hxc.
    assert (Hex : existsb (fun x => mem x c) a = true)
      by (apply existsb_exists; eauto).
    congruence.
Qed.

End EnumReturn.

Lemma enum_inv solve self depth fuel feats_idx alg t r :
  enum solve self depth fuel feats_idx alg = (t, Ret r) ->
  exists t0,
    enum_loop solve self depth fuel feats_idx alg (register [] feats_idx)
              [] [] [] = (t0, Ret r).
Proof.
  unfold enum. intros H.
  apply bind_ret_inv in H. destruct H as (t0 & r0 & t1 & E & H & ->).
  apply bind_ret_inv in H. destruct H as (t2 & [] & t3 & _ & H & ->).
  inversion H; subst. eauto.
Qed.

(** ** The reference solver meets the contract *)

Lemma assignments_shape k :
  forall v m, 0 <= v -> In m (assignments v k) ->
              map Z.abs m = map (fun i => v + Z.of_nat i) (seq 1 k).
Proof.
  induction k as [|k IH]; intros v m Hv Hm; cbn [assignments] in Hm.
  - destruct Hm as [<-|[]]. reflexivity.
  - cbn [seq map]. rewrite <- seq_shift, map_map.
    assert (Etl : forall m', In m' (assignments (v + 1) k) ->
                  map Z.abs m' = map (fun i => v + Z.of_nat (S i)) (seq 1 k)).
    { intros m' Hm'. rewrite (IH (v + 1) m') by (assumption || lia).
      apply map_ext. intros i. lia. }
    apply in_app_iff in Hm.
    destruct Hm as [Hm|Hm]; apply in_map_iff in Hm;
      destruct Hm as (m' & <- & Hm'); cbn [map];
      rewrite (Etl _ Hm'); f_equal; lia.
Qed.

Lemma brute_solve_sound : solver_sound brute_solve.
Proof.
  intros clauses model H. unfold brute_solve in H.
  apply find_some in H. destruct H as [Hin Hsat]. split.
  - rewrite (assignments_shape _ _ _ (Z.le_refl 0) Hin). unfold variables.
    apply map_ext. intros i. lia.
  - intros c Hc. unfold model_sat in Hsat.
    rewrite forallb_forall in Hsat. specialize (Hsat c Hc).
    unfold clause_sat in Hsat. apply existsb_exists in Hsat.
    destruct Hsat as (l & Hl & Hm). exists l. split; [assumption|].
    now apply mem_In.
Qed.

Lemma scenario_dual : dual (scenario 0) [1; 2; 3].
Proof. intros U. reflexivity. Qed.

(** ** Duality of the explanations enumerated *)

(** C2, as the code has it.  When [waxp] is monotone and the two oracles
    speak about the same classifier over [feats_idx], that is
    [wcxp(U) = not waxp(feats_idx without U)] for every [U], every AXp and
    every CXp that a run of [enum] returns have an element in common. *)
Theorem enum_duality solve self depth fuel feats_idx alg t axps cxps :
  monotone (waxp self) ->
  dual self feats_idx ->
  enum solve self depth fuel feats_idx alg = (t, Ret (axps, cxps)) ->
  forall a c, In a axps -> In c cxps -> exists x, In x a /\ In x c.
Proof.
  intros Hmono Hdual H a c Ha Hc.
  apply enum_inv in H. destruct H as (t0 & H).
  destruct (enum_loop_weak solve self depth feats_idx alg Hmono Hdual
              fuel _ _ _ _ _ H) as [HA HC].
  { intros ? []. }
  { intros ? []. }
  destruct (HA a Ha) as [Hwa Hincl].
  apply (weak_axp_hits_weak_cxp self feats_idx Hmono Hdual a c Hwa Hincl (HC c Hc)).
Qed.

Lemma enum_duality_witness :
  enum brute_solve (scenario 0) 3 9 [1; 2; 3] "del" =
    ([CallSolve true; CallWcxp []; CallWaxp [2; 3]; CallWaxp [3]; CallWaxp [2];
      CallSolve true; CallWcxp [3]; CallWaxp [2]; CallWaxp [1];
      CallSolve true; CallWcxp [1; 3]; CallWcxp [3]; CallWcxp [1];
      CallSolve true; CallWcxp [1; 2]; CallWcxp [2]; CallWcxp [1];
      CallSolve false],
     Ret ([[2; 3]; [1]], [[1; 3]; [1; 2]])) /\
  forall a c, In a [[2; 3]; [1]] -> In c [[1; 3]; [1; 2]] ->
              exists x, In x a /\ In x c.
Proof.
  split; [reflexivity|].
  apply (enum_duality brute_solve (scenario 0) 3 9 [1; 2; 3] "del" _ _ _
           scenario_waxp_monotone scenario_dual eq_refl).
Defined.

(** Two monotone oracles, one true on the lists with the feature 1, the
    other on the lists with the feature 2: the enumeration returns the AXp
    [[1]] and the CXp [[2]], which have nothing in common. *)
Lemma enum_duality_needs_dual_oracles :
  monotone (waxp unrelated_explainer) /\
  monotone (wcxp unrelated_explainer) /\
  solver_sound brute_solve /\
  enum brute_solve unrelated_explainer 2 5 [1; 2] "del" =
    ([CallSolve true; CallWcxp []; CallWaxp [2]; CallWaxp [1];
      CallSolve true; CallWcxp [1]; CallWaxp [];
      CallSolve true; CallWcxp [1; 2]; CallWcxp [2]; CallWcxp [];
      CallSolve false],
     Ret ([[1]; [2]], [[2]])) /\
  In [1] [[1]; [2]] /\ In [2] [[2]] /\
  ~ (exists x, In x [1] /\ In x [2]).
Proof.
  split; [intros T T' Hincl; apply mem_incl; assumption|].
  split; [intros T T' Hincl; apply mem_incl; assumption|].
  split; [apply brute_solve_sound|].
  split; [reflexivity|].
  split; [simpl; auto|]. split; [simpl; auto|].
  intros (x & [<-|[]] & [E|[]]). discriminate.
Qed.

(** ** No explanation is enumerated twice *)

Section EnumDistinct.

Variable solve : list (list Z) -> option (list Z).
Variable self : LogicXplainer.
Variable depth : nat.
Variable feats_idx : list Z.
Variable alg : string.

Hypothesis solve_sound : solver_sound solve.

Local Abbreviation pool := (register [] feats_idx).

(** A model of the clauses frees a feature of every AXp found so far. *)
Lemma model_hits_axp clauses model a :
  solve clauses = Some model ->
  incl a pool -> In (map (fun i => 1 * var_of pool i) a) clauses ->
  exists i, In i a /\ In i (decode pool model).
Proof.
  intros Hs Hincl Hcl. destruct (solve_sound _ _ Hs) as [_ Hsat].
  destruct (Hsat _ Hcl) as (l & Hl & Hm).
  apply in_map_iff in Hl. destruct Hl as (i & <- & Hi).
  exists i. split; [assumption|].
  apply decode_var_of; [apply pool_NoDup | auto |].
  now rewrite Z.mul_1_l in Hm.
Qed.

(** A model of the clauses fixes a feature of every CXp found so far. *)
Lemma model_misses_cxp clauses model c :
  solve clauses = Some model ->
  incl c pool -> In (map (fun i => -1 * var_of pool i) c) clauses ->
  exists i, In i c /\ ~ In i (decode pool model).
Proof.
  intros Hs Hincl Hcl. destruct (solve_sound _ _ Hs) as [Hshape Hsat].
  destruct (Hsat _ Hcl) as (l & Hl & Hm).
  apply in_map_iff in Hl. destruct Hl as (i & <- & Hi).
  exists i. split; [assumption|]. intros Hd.
  apply decode_var_of in Hd; [|apply pool_NoDup | auto].
  destruct (model_literals _ _ _ Hshape Hm) as [_ Hopp].
  apply Hopp. replace (- (-1 * var_of pool i)) with (var_of pool i) by lia.
  assumption.
Qed.

Lemma enum_loop_distinct fuel :
  forall clauses axps cxps t r,
    enum_loop solve self depth fuel feats_idx alg pool clauses axps cxps
    = (t, Ret r) ->
    blocked pool clauses axps cxps ->
    no_later_superset (fst r) /\ no_later_superset (snd r).
Proof.
  induction fuel as [|fuel IH]; intros clauses axps cxps t r H Hb.
  - discriminate.
  - apply enum_loop_inv in H.
    destruct H as [[_ ->] | (model & xp & t' & Hs & [H|H])].
    + destruct Hb as (Ha & Hc & _). split; assumption.
    + destruct H as (_ & Hsub & _ & H). apply (IH _ _ _ _ _ H).
      destruct Hb as (Ha & Hc & Hca & Hcc). repeat split.
      * assumption.
      * apply no_later_superset_app; [assumption|].
        intros c Hin Hincl. destruct (Hcc c Hin) as [Hp Hcl].
        destruct (model_misses_cxp _ _ _ Hs Hp Hcl) as (i & Hi & Hn).
        apply Hn. apply (sublist_incl _ _ Hsub). auto.
      * apply Hca. assumption.
      * apply in_app_iff. left. now apply Hca.
      * apply in_app_iff in H0. destruct H0 as [Hin|[<-|[]]].
        -- now apply Hcc.
        -- intros i Hi. eapply decode_incl, sublist_incl; eassumption.
      * apply in_app_iff in H0. apply in_app_iff.
        destruct H0 as [Hin|[<-|[]]]; [left; now apply Hcc | right; now left].
    + destruct H as (_ & Hsub & _ & H). apply (IH _ _ _ _ _ H).
      destruct Hb as (Ha & Hc & Hca & Hcc). repeat split.
      * apply no_later_superset_app; [assumption|].
        intros a Hin Hincl. destruct (Hca a Hin) as [Hp Hcl].
        destruct (model_hits_axp _ _ _ Hs Hp Hcl) as (i & Hi & Hd).
        specialize (Hincl i Hi).
        apply (sublist_incl _ _ Hsub) in Hincl.
        apply (proj1 (complement_In _ _ _)) in Hincl. tauto.
      * assumption.
      * apply in_app_iff in H0. destruct H0 as [Hin|[<-|[]]].
        -- now apply Hca.
        -- intros i Hi. apply pool_In.
           apply (sublist_incl _ _ Hsub) in Hi.
           apply (proj1 (complement_In _ _ _)) in Hi. tauto.
      * apply in_app_iff in H0. apply in_app_iff.
        destruct H0 as [Hin|[<-|[]]]; [left; now apply Hca | right; now left].
      * apply Hcc. assumption.
      * apply in_app_iff. left. now apply Hcc.
Qed.

End EnumDistinct.

(** C7.  With a solver that meets its contract, the AXps that a run of
    [enum] returns are pairwise different as sets, and so are the CXps
    (whatever the oracles). *)
Theorem enum_no_duplicates solve self depth fuel feats_idx alg t axps cxps :
  solver_sound solve ->
  enum solve self depth fuel feats_idx alg = (t, Ret (axps, cxps)) ->
  distinct_sets axps /\ distinct_sets cxps.
Proof.
  intros Hsound H. apply enum_inv in H. destruct H as (t0 & H).
  destruct (enum_loop_distinct solve self depth feats_idx alg Hsound
              fuel _ _ _ _ _ H) as [Ha Hc].
  { split; [apply no_later_superset_nil|].
    split; [apply no_later_superset_nil|].
    split; intros ? []. }
  split; apply no_later_superset_distinct; assumption.
Qed.

Lemma enum_no_duplicates_witness :
  enum brute_solve (scenario 0) 3 9 [1; 2; 3] "qxp" =
    ([CallSolve true; CallWcxp []; CallWaxp [1];
      CallSolve true; CallWcxp [1]; CallWaxp [2]; CallWaxp [3];
      CallSolve true; CallWcxp [1; 3]; CallWcxp [1]; CallWcxp [3];
      CallSolve true; CallWcxp [1; 2]; CallWcxp [1]; CallWcxp [2];
      CallSolve false],
     Ret ([[1]; [2; 3]], [[1; 3]; [1; 2]])) /\
  distinct_sets [[1]; [2; 3]] /\ distinct_sets [[1; 3]; [1; 2]].
Proof.
  split; [reflexivity|].
  apply (enum_no_duplicates brute_solve (scenario 0) 3 9 [1; 2; 3] "qxp" _ _ _
           brute_solve_sound eq_refl).
Defined.

(** ** Assignments *)

Lemma all_vectors_length n : length (all_vectors n) = Nat.pow 2 n.
Proof.
  induction n as [|n IH]; cbn [all_vectors Nat.pow]; [reflexivity|].
  rewrite length_app, !length_map, IH. lia.
Qed.

Lemma all_vectors_In n :
  forall s : list bool, length s = n -> In s (all_vectors n).
Proof.
  induction n as [|n IH]; intros s Hs; cbn [all_vectors].
  - destruct s; [now left | discriminate].
  - destruct s as [|b s]; [discriminate|]. simpl in Hs.
    apply in_app_iff. destruct b; [right | left];
      apply in_map; apply IH; lia.
Qed.

(** Assignments that are pairwise different are at most 2^n. *)
Lemma seen_bound n (seen : list (list bool)) :
  NoDup seen -> (forall s, In s seen -> length s = n) ->
  (length seen <= Nat.pow 2 n)%nat.
Proof.
  intros Hnd Hlen. rewrite <- all_vectors_length.
  apply NoDup_incl_length; [assumption|].
  intros s Hs. apply all_vectors_In. auto.
Qed.

Lemma assignment_length n model : length (assignment n model) = n.
Proof. unfold assignment, variables. now rewrite !length_map, length_seq. Qed.

Lemma assignment_nth n model v :
  1 <= v <= Z.of_nat n ->
  nth (Z.to_nat (v - 1)) (assignment n model) false = mem v model.
Proof.
  intros Hv. unfold assignment, variables. rewrite map_map.
  rewrite (nth_indep _ false (mem (Z.of_nat 0) model))
    by (rewrite length_map, length_seq; lia).
  rewrite (map_nth (fun i => mem (Z.of_nat i) model)).
  rewrite seq_nth by lia. f_equal. lia.
Qed.

(** A literal of a model is true under the assignment of the model. *)
Lemma lit_true_model n k model l :
  map Z.abs model = variables k -> (k <= n)%nat ->
  In l model -> lit_true (assignment n model) l = true.
Proof.
  intros Hshape Hk Hl.
  destruct (model_literals _ _ _ Hshape Hl) as [Hr Hopp].
  unfold lit_true. destruct (0 <? l) eqn:E.
  - apply Z.ltb_lt in E. rewrite assignment_nth by lia. now apply mem_In.
  - apply Z.ltb_ge in E.
    replace (- l - 1) with (- l - 1) by reflexivity.
    rewrite assignment_nth by lia.
    apply negb_true_iff, mem_false. assumption.
Qed.

(** ** The enumeration loop comes to an end *)

Section EnumTotal.

Variable solve : list (list Z) -> option (list Z).
Variable self : LogicXplainer.
Variable depth : nat.
Variable feats_idx : list Z.
Variable alg : string.

Hypothesis solve_sound : solver_sound solve.

Local Abbreviation pool := (register [] feats_idx).
Local Abbreviation n := (length (register [] feats_idx)).

(** The minimizers return on the lists that the loop hands them. *)
Hypothesis minimize_cxp_total :
  forall univ,
    wcxp self univ = true -> (length univ <= length feats_idx)%nat ->
    exists t xp,
      (if String.eqb alg "del" then cxp_del self univ
       else if String.eqb alg "qxp" then cxp_qxp self depth univ
            else raise UnboundLocalError) = (t, Ret xp) /\
      sublist xp univ /\ iterations t = O.

Hypothesis minimize_axp_total :
  forall univ,
    wcxp self univ = false ->
    exists t xp,
      (if String.eqb alg "del" then axp_del self (complement feats_idx univ)
       else if String.eqb alg "qxp"
            then axp_qxp self depth (complement feats_idx univ)
            else raise UnboundLocalError) = (t, Ret xp) /\
      sublist xp (complement feats_idx univ) /\ iterations t = O.

(** One iteration, on the side of the CXps. *)
Lemma enum_loop_step_cxp fuel clauses axps cxps model t1 xp :
  solve clauses = Some model ->
  read_model pool model [] = ([], Ret (decode pool model)) ->
  wcxp self (decode pool model) = true ->
  (if String.eqb alg "del" then cxp_del self (decode pool model)
   else if String.eqb alg "qxp" then cxp_qxp self depth (decode pool model)
        else raise UnboundLocalError) = (t1, Ret xp) ->
  incl xp pool ->
  enum_loop solve self depth (S fuel) feats_idx alg pool clauses axps cxps =
  (CallSolve true :: CallWcxp (decode pool model) :: t1 ++
     fst (enum_loop solve self depth fuel feats_idx alg pool
            (clauses ++ [map (fun i => -1 * var_of pool i) xp])
            axps (cxps ++ [xp])),
   snd (enum_loop solve self depth fuel feats_idx alg pool
          (clauses ++ [map (fun i => -1 * var_of pool i) xp])
          axps (cxps ++ [xp]))).
Proof.
  intros Hs Hr Hw Hm Hincl. cbn [enum_loop]. rewrite Hs.
  rewrite (bind_val _ _ _ _ (eq_refl : tell (CallSolve true) = (_, Ret tt))).
  rewrite (bind_val _ _ _ _ Hr).
  rewrite (bind_val _ _ _ _ (ask_val CallWcxp (wcxp self) (decode pool model))).
  rewrite Hw. rewrite (bind_val _ _ _ _ Hm).
  rewrite (new_vars_known _ _ _ Hincl). reflexivity.
Qed.

(** One iteration, on the side of the AXps. *)
Lemma enum_loop_step_axp fuel clauses axps cxps model t1 xp :
  solve clauses = Some model ->
  read_model pool model [] = ([], Ret (decode pool model)) ->
  wcxp self (decode pool model) = false ->
  (if String.eqb alg "del"
   then axp_del self (complement feats_idx (decode pool model))
   else if String.eqb alg "qxp"
        then axp_qxp self depth (complement feats_idx (decode pool model))
        else raise UnboundLocalError) = (t1, Ret xp) ->
  incl xp pool ->
  enum_loop solve self depth (S fuel) feats_idx alg pool clauses axps cxps =
  (CallSolve true :: CallWcxp (decode pool model) :: t1 ++
     fst (enum_loop solve self depth fuel feats_idx alg pool
            (clauses ++ [map (fun i => 1 * var_of pool i) xp])
            (axps ++ [xp]) cxps),
   snd (enum_loop solve self depth fuel feats_idx alg pool
          (clauses ++ [map (fun i => 1 * var_of pool i) xp])
          (axps ++ [xp]) cxps)).
Proof.
  intros Hs Hr Hw Hm Hincl. cbn [enum_loop]. rewrite Hs.
  rewrite (bind_val _ _ _ _ (eq_refl : tell (CallSolve true) = (_, Ret tt))).
  rewrite (bind_val _ _ _ _ Hr).
  rewrite (bind_val _ _ _ _ (ask_val CallWcxp (wcxp self) (decode pool model))).
  rewrite Hw. unfold complement in Hm. rewrite (bind_val _ _ _ _ Hm).
  rewrite (new_vars_known _ _ _ Hincl). reflexivity.
Qed.

(** The model of the solver is a new assignment. *)
Lemma model_is_new clauses seen model :
  excluded n clauses seen ->
  solve clauses = Some model ->
  (length model <= n)%nat /\
  (forall lit, In lit model -> 1 <= Z.abs lit <= Z.of_nat n) /\
  ~ In (assignment n model) seen.
Proof.
  intros (Hcl & Hnd & Hseen) Hs.
  destruct (solve_sound _ _ Hs) as [Hshape Hsat].
  assert (Hk : (nof_vars clauses <= n)%nat).
  { apply nof_vars_le. intros c l Hc Hl. apply (Hcl c l Hc Hl). }
  split; [|split].
  - rewrite (model_length _ _ Hshape). exact Hk.
  - intros lit Hlit.
    destruct (model_literals _ _ _ Hshape Hlit) as [Hr _]. lia.
  - intros Hin. destruct (Hseen _ Hin) as (_ & c & Hc & Hf).
    destruct (Hsat c Hc) as (l & Hl & Hm).
    specialize (Hf l Hl).
    rewrite (lit_true_model n _ _ _ Hshape Hk Hm) in Hf. discriminate.
Qed.

Lemma excluded_weaken clauses clause seen s :
  (forall l, In l clause -> 1 <= Z.abs l <= Z.of_nat n) ->
  length s = n -> falsifies s clause -> ~ In s seen ->
  excluded n clauses seen ->
  excluded n (clauses ++ [clause]) (s :: seen).
Proof.
  intros Hcl Hlen Hf Hnew (Hold & Hnd & Hseen). split; [|split].
  - intros c l Hc Hl. apply in_app_iff in Hc.
    destruct Hc as [Hc|[<-|[]]]; [apply (Hold c l Hc Hl) | auto].
  - constructor; assumption.
  - intros s' [<-|Hs'].
    + split; [assumption|]. exists clause. split; [|assumption].
      apply in_app_iff. right. now left.
    + destruct (Hseen _ Hs') as (Hl & c & Hc & Hfc).
      split; [assumption|]. exists c. split; [|assumption].
      apply in_app_iff. now left.
Qed.

(** The clause added for a CXp excludes the assignment it was found with. *)
Lemma excluded_step_cxp clauses seen model xp :
  excluded n clauses seen ->
  solve clauses = Some model ->
  sublist xp (decode pool model) ->
  excluded n (clauses ++ [map (fun i => -1 * var_of pool i) xp])
           (assignment n model :: seen).
Proof.
  intros Hex Hs Hsub.
  destruct (model_is_new _ _ _ Hex Hs) as (_ & _ & Hnew).
  assert (Hpool : forall i, In i xp -> In i pool /\ In (var_of pool i) model).
  { intros i Hi. apply (sublist_incl _ _ Hsub) in Hi. split.
    - now apply decode_incl in Hi.
    - apply decode_var_of; [apply pool_NoDup | now apply decode_incl in Hi | exact Hi]. }
  apply excluded_weaken; auto using assignment_length.
  - intros l Hl. apply in_map_iff in Hl. destruct Hl as (i & <- & Hi).
    destruct (Hpool i Hi) as [Hp _].
    pose proof (var_of_range _ _ Hp). lia.
  - intros l Hl. apply in_map_iff in Hl. destruct Hl as (i & <- & Hi).
    destruct (Hpool i Hi) as [Hp Hm].
    pose proof (var_of_range _ _ Hp) as Hr. unfold lit_true.
    replace (0 <? -1 * var_of pool i) with false
      by (symmetry; apply Z.ltb_ge; lia).
    replace (- (-1 * var_of pool i) - 1) with (var_of pool i - 1) by lia.
    rewrite assignment_nth by lia.
    apply negb_false_iff, mem_In. assumption.
Qed.

(** The clause added for an AXp excludes the assignment it was found with. *)
Lemma excluded_step_axp clauses seen model xp :
  excluded n clauses seen ->
  solve clauses = Some model ->
  sublist xp (complement feats_idx (decode pool model)) ->
  excluded n (clauses ++ [map (fun i => 1 * var_of pool i) xp])
           (assignment n model :: seen).
Proof.
  intros Hex Hs Hsub.
  destruct (model_is_new _ _ _ Hex Hs) as (_ & _ & Hnew).
  assert (Hpool : forall i, In i xp -> In i pool /\ ~ In (var_of pool i) model).
  { intros i Hi. apply (sublist_incl _ _ Hsub) in Hi.
    apply (proj1 (complement_In _ _ _)) in Hi. destruct Hi as [Hf Hd].
    apply pool_In in Hf. split; [assumption|]. intros Hm. apply Hd.
    apply decode_var_of; [apply pool_NoDup | assumption | assumption]. }
  apply excluded_weaken; auto using assignment_length.
  - intros l Hl. apply in_map_iff in Hl. destruct Hl as (i & <- & Hi).
    destruct (Hpool i Hi) as [Hp _].
    pose proof (var_of_range _ _ Hp). lia.
  - intros l Hl. apply in_map_iff in Hl. destruct Hl as (i & <- & Hi).
    destruct (Hpool i Hi) as [Hp Hm].
    pose proof (var_of_range _ _ Hp) as Hr. unfold lit_true.
    replace (0 <? 1 * var_of pool i) with true
      by (symmetry; apply Z.ltb_lt; lia).
    replace (1 * var_of pool i - 1) with (var_of pool i - 1) by lia.
    rewrite assignment_nth by lia.
    apply mem_false. assumption.
Qed.

(** With more turns allowed than there are assignments left, the loop
    returns; it appends one explanation per iteration. *)
Lemma enum_loop_total fuel :
  forall clauses axps cxps seen,
    excluded n clauses seen ->
    (Nat.pow 2 n < fuel + length seen)%nat ->
    exists t axps' cxps',
      enum_loop solve self depth fuel feats_idx alg pool clauses axps cxps
      = (t, Ret (axps', cxps')) /\
      (iterations t + length seen <= Nat.pow 2 n)%nat /\
      (length axps' + length cxps' =
       length axps + length cxps + iterations t)%nat.
Proof.
  induction fuel as [|fuel IH]; intros clauses axps cxps seen Hex Hfuel.
  - exfalso. destruct Hex as (_ & Hnd & Hseen).
    assert (length seen <= Nat.pow 2 n)%nat
      by (apply seen_bound; [assumption | intros s Hs; apply (Hseen s Hs)]).
    lia.
  - assert (Hbound : (length seen <= Nat.pow 2 n)%nat).
    { destruct Hex as (_ & Hnd & Hseen).
      apply seen_bound; [assumption | intros s Hs; apply (Hseen s Hs)]. }
    destruct (solve clauses) as [model|] eqn:Hs.
    2:{ exists [CallSolve false], axps, cxps. cbn [enum_loop]. rewrite Hs.
        repeat split; unfold iterations; simpl; lia. }
    destruct (model_is_new _ _ _ Hex Hs) as (Hlen & Hlits & Hnew).
    pose proof (read_model_total pool model Hlits []) as Hr. simpl in Hr.
    destruct (wcxp self (decode pool model)) eqn:Hw.
    + destruct (minimize_cxp_total (decode pool model) Hw)
        as (t1 & xp & Hm & Hsub & Ht1).
      { pose proof (decode_length pool model). pose proof (pool_length feats_idx). lia. }
      assert (Hincl : incl xp pool).
      { intros i Hi. eapply decode_incl, sublist_incl; eassumption. }
      rewrite (enum_loop_step_cxp _ _ _ _ _ _ _ Hs Hr Hw Hm Hincl).
      destruct (IH (clauses ++ [map (fun i => -1 * var_of pool i) xp])
                   axps (cxps ++ [xp]) (assignment n model :: seen))
        as (t & axps' & cxps' & E & Hit & Hcount).
      { now apply excluded_step_cxp. }
      { simpl. lia. }
      rewrite E. cbn [fst snd].
      exists (CallSolve true :: CallWcxp (decode pool model) :: t1 ++ t),
        axps', cxps'.
      assert (Hi : iterations (CallSolve true :: CallWcxp (decode pool model)
                                 :: t1 ++ t) = S (iterations t)).
      { change (CallSolve true :: CallWcxp (decode pool model) :: t1 ++ t)
          with ([CallSolve true; CallWcxp (decode pool model)] ++ t1 ++ t).
        rewrite !iterations_app, Ht1. reflexivity. }
      rewrite Hi. rewrite length_app in Hcount. simpl in Hit, Hcount.
      repeat split; lia.
    + destruct (minimize_axp_total (decode pool model) Hw)
        as (t1 & xp & Hm & Hsub & Ht1).
      assert (Hincl : incl xp pool).
      { intros i Hi. apply pool_In. apply (sublist_incl _ _ Hsub) in Hi.
        apply (proj1 (complement_In _ _ _)) in Hi. tauto. }
      rewrite (enum_loop_step_axp _ _ _ _ _ _ _ Hs Hr Hw Hm Hincl).
      destruct (IH (clauses ++ [map (fun i => 1 * var_of pool i) xp])
                   (axps ++ [xp]) cxps (assignment n model :: seen))
        as (t & axps' & cxps' & E & Hit & Hcount).
      { now apply excluded_step_axp. }
      { simpl. lia. }
      rewrite E. cbn [fst snd].
      exists (CallSolve true :: CallWcxp (decode pool model) :: t1 ++ t),
        axps', cxps'.
      assert (Hi : iterations (CallSolve true :: CallWcxp (decode pool model)
                                 :: t1 ++ t) = S (iterations t)).
      { change (CallSolve true :: CallWcxp (decode pool model) :: t1 ++ t)
          with ([CallSolve true; CallWcxp (decode pool model)] ++ t1 ++ t).
        rewrite !iterations_app, Ht1. reflexivity. }
      rewrite Hi. rewrite length_app in Hcount. simpl in Hit, Hcount.
      repeat split; lia.
Qed.

(** The whole method. *)
Lemma enum_total fuel :
  (Nat.pow 2 (length feats_idx) < fuel)%nat ->
  exists t axps cxps,
    enum solve self depth fuel feats_idx alg = (t, Ret (axps, cxps)) /\
    iterations t = (length axps + length cxps)%nat /\
    (iterations t <= Nat.pow 2 (length feats_idx))%nat.
Proof.
  intros Hfuel.
  assert (Hpow : (Nat.pow 2 n <= Nat.pow 2 (length feats_idx))%nat)
    by (apply Nat.pow_le_mono_r; [lia | apply pool_length]).
  destruct (enum_loop_total fuel [] [] [] [])
    as (t & axps & cxps & E & Hit & Hcount).
  { split; [intros c l []|]. split; [constructor | intros s []]. }
  { simpl. lia. }
  unfold enum. rewrite (bind_val _ _ _ _ E). cbn [fst snd length].
  assert (Ep : exists tp,
             (if negb (verbose self =? 0)
              then tell (Print (MsgNumAXp (length axps))) ;;
                   tell (Print (MsgNumCXp (length cxps))) ;;
                   tell (Print MsgRuntime)
              else ret tt) = (tp, Ret tt) /\ forallb is_print tp = true).
  { destruct (negb (verbose self =? 0)); eexists; split; reflexivity. }
  destruct Ep as (tp & Ep & Hp). rewrite (bind_val _ _ _ _ Ep).
  destruct (prints_count tp Hp) as (_ & _ & Hi & _).
  exists (t ++ tp ++ []), axps, cxps. cbn [fst snd ret].
  rewrite !iterations_app, Hi. change (iterations []) with O.
  cbn [length] in Hit, Hcount.
  split; [reflexivity|]. split; lia.
Qed.

End EnumTotal.

(** ** Termination of the enumeration *)

Lemma complement_length feats_idx U :
  (length (complement feats_idx U) <= length feats_idx)%nat.
Proof. unfold complement. apply filter_length_le. Qed.

(** X18.  With a solver that meets its contract, [enum] returns after at
    most 2^|feats_idx| iterations of its loop, one per explanation returned:
    - with the deletion based minimizers, whatever the oracles;
    - with the QuickXplain minimizers, when the oracles speak about the
      same classifier and neither holds on the empty list (no minimizer is
      then called on an empty list), the recursion being allowed a depth
      of |feats_idx|. *)
Theorem enum_terminates solve self depth fuel feats_idx alg :
  solver_sound solve ->
  alg = "del"%string \/
  (alg = "qxp"%string /\ dual self feats_idx /\
   waxp self [] = false /\ wcxp self [] = false /\
   (length feats_idx <= depth)%nat) ->
  (Nat.pow 2 (length feats_idx) < fuel)%nat ->
  exists t axps cxps,
    enum solve self depth fuel feats_idx alg = (t, Ret (axps, cxps)) /\
    iterations t = (length axps + length cxps)%nat /\
    (iterations t <= Nat.pow 2 (length feats_idx))%nat.
Proof.
  intros Hsound Halg Hfuel.
  apply (enum_total solve self depth feats_idx alg Hsound); [| |assumption].
  - intros univ Hw Hlen. destruct Halg as [->|(-> & Hdual & Ha & Hc & Hd)].
    + cbn [String.eqb Ascii.eqb Bool.eqb andb].
      destruct (cxp_del_total self univ) as (qs & tp & A & E & _ & _ & Hp & Hsub).
      exists (map CallWcxp qs ++ tp), A. repeat split; auto.
      rewrite iterations_app.
      destruct (wcxp_trace_count qs) as (_ & _ & ->).
      now destruct (prints_count tp Hp) as (_ & _ & -> & _).
    + cbn [String.eqb Ascii.eqb Bool.eqb andb].
      destruct (cxp_qxp_total self depth univ) as (qs & tp & A & E & _ & Hp & Hsub).
      { intros ->. congruence. }
      { lia. }
      exists (map CallWcxp qs ++ tp), A. repeat split; auto.
      rewrite iterations_app.
      destruct (wcxp_trace_count qs) as (_ & _ & ->).
      now destruct (prints_count tp Hp) as (_ & _ & -> & _).
  - intros univ Hw. destruct Halg as [->|(-> & Hdual & Ha & Hc & Hd)].
    + cbn [String.eqb Ascii.eqb Bool.eqb andb].
      destruct (axp_del_total self (complement feats_idx univ))
        as (qs & tp & A & E & _ & _ & Hp & Hsub).
      exists (map CallWaxp qs ++ tp), A. repeat split; auto.
      rewrite iterations_app.
      destruct (waxp_trace_count qs) as (_ & _ & ->).
      now destruct (prints_count tp Hp) as (_ & _ & -> & _).
    + cbn [String.eqb Ascii.eqb Bool.eqb andb].
      destruct (axp_qxp_total self depth (complement feats_idx univ))
        as (qs & tp & A & E & _ & Hp & Hsub).
      { intros E. rewrite Hdual, E, Ha in Hw. discriminate. }
      { pose proof (complement_length feats_idx univ). lia. }
      exists (map CallWaxp qs ++ tp), A. repeat split; auto.
      rewrite iterations_app.
      destruct (waxp_trace_count qs) as (_ & _ & ->).
      now destruct (prints_count tp Hp) as (_ & _ & -> & _).
Qed.

Lemma enum_terminates_witness :
  exists t axps cxps,
    enum brute_solve (scenario 0) 3 9 [1; 2; 3] "del" = (t, Ret (axps, cxps)) /\
    iterations t = (length axps + length cxps)%nat /\
    (iterations t <= Nat.pow 2 3)%nat.
Proof.
  apply (enum_terminates brute_solve (scenario 0) 3 9 [1; 2; 3] "del"
           brute_solve_sound (or_introl eq_refl)).
  simpl. lia.
Defined.

Lemma constant_dual feats_idx : dual constant_explainer feats_idx.
Proof. intros U. reflexivity. Qed.

(** C3, at a constant classifier over the one feature 1, enumerated with
    the QuickXplain minimizers.  The first iteration returns the AXp [[1]];
    the second one frees the feature 1 and calls [axp_qxp] on the empty
    list, where the recursion does not come to an end: [enum] does not
    return, however many iterations and however deep a recursion it is
    allowed, although the oracles are monotone and dual and the solver
    meets its contract.  With the deletion based minimizers the same
    enumeration returns after one iteration. *)
Theorem enum_qxp_diverges :
  monotone (waxp constant_explainer) /\
  monotone (wcxp constant_explainer) /\
  dual constant_explainer [1] /\
  solver_sound brute_solve /\
  (forall depth fuel,
      snd (enum brute_solve constant_explainer depth fuel [1] "qxp") = Diverge) /\
  enum brute_solve constant_explainer 1 3 [1] "qxp" =
    ([CallSolve true; CallWcxp []; CallSolve true; CallWcxp [1]], Diverge) /\
  enum brute_solve constant_explainer 1 3 [1] "del" =
    ([CallSolve true; CallWcxp []; CallWaxp []; CallSolve false],
     Ret ([[]], [])).
Proof.
  split; [intros T T' _ _; reflexivity|].
  split; [intros T T' _ H; exact H|].
  split; [apply constant_dual|].
  split; [apply brute_solve_sound|].
  split; [|split; reflexivity].
  intros depth fuel. unfold enum.
  assert (E : snd (enum_loop brute_solve constant_explainer depth fuel [1] "qxp"
                     (register [] [1]) [] [] []) = Diverge).
  { destruct fuel as [|fuel]; [reflexivity|].
    destruct depth as [|depth]; [reflexivity|].
    destruct fuel as [|fuel]; [reflexivity|].
    assert (E1 : axp_qxp constant_explainer (S depth) [1] = ([], Ret [1]))
      by reflexivity.
    assert (E2 : axp_qxp constant_explainer (S depth) [] = ([], Diverge)).
    { apply reported_diverge. apply (qxp_recur_empty CallWaxp). }
    cbn [enum_loop]. change (brute_solve []) with (Some (@nil Z)).
    assert (B1 : brute_solve [[1]] = Some [1]) by reflexivity.
    cbn -[enum_loop brute_solve axp_qxp]. rewrite E1.
    cbn -[enum_loop brute_solve axp_qxp]. rewrite B1.
    cbn -[enum_loop brute_solve axp_qxp]. rewrite E2. reflexivity. }
  destruct (enum_loop brute_solve constant_explainer depth fuel [1] "qxp"
              (register [] [1]) [] [] []) as [t o].
  cbn [snd] in E. subst o. reflexivity.
Qed.


(** * Further properties of the minimizers *)

(** ** The contrastive side *)

(** X1.  For a monotone oracle [wcxp] and a list [S] with [wcxp(S)] true,
    [cxp_del(S)] returns a sublist of [S] on which [wcxp] holds, from which
    no element can be removed, and in which no element is repeated (even if
    [S] repeats some). *)
Theorem cxp_del_minimal self S :
  monotone (wcxp self) ->
  wcxp self S = true ->
  exists t C,
    cxp_del self S = (t, Ret C) /\
    sublist C S /\ wcxp self C = true /\ minimal (wcxp self) C /\ NoDup C.
Proof.
  intros Hmono HS.
  destruct (cxp_del_total self S) as (qs & tp & C & E & El & _ & _ & Hsub).
  destruct (del_loop_minimal CallWcxp (wcxp self) Hmono S S _ C El
              (del_inv_init _ S HS)) as (HC & Hmin & Hnd).
  exists (map CallWcxp qs ++ tp), C. auto.
Qed.

Lemma scenario_wcxp_monotone : monotone scenario_wcxp.
Proof.
  apply (wcxp_mono (scenario 0) [1; 2; 3] scenario_waxp_monotone scenario_dual).
Qed.

Lemma cxp_del_minimal_witness :
  exists t C,
    cxp_del (scenario 0) [1; 2; 3; 2] = (t, Ret C) /\
    sublist C [1; 2; 3; 2] /\ scenario_wcxp C = true /\
    minimal scenario_wcxp C /\ NoDup C.
Proof.
  apply (cxp_del_minimal (scenario 0) [1; 2; 3; 2] scenario_wcxp_monotone eq_refl).
Defined.

(** X2.  For a monotone oracle [wcxp], a non-empty list [S] with [wcxp(S)]
    true and [wcxp([])] false, [cxp_qxp(S)] returns (its recursion is no
    deeper than the length of [S]) a sublist of [S] on which [wcxp] holds
    and from which no element can be removed. *)
Theorem cxp_qxp_minimal self S depth :
  monotone (wcxp self) ->
  wcxp self S = true ->
  S <> [] -> wcxp self [] = false -> (length S <= depth)%nat ->
  exists t C,
    cxp_qxp self depth S = (t, Ret C) /\
    sublist C S /\ wcxp self C = true /\ minimal (wcxp self) C.
Proof.
  intros Hmono HS Hne H0 Hlen.
  destruct (cxp_qxp_total self depth S Hne Hlen) as (qs & tp & C & E & Er & _ & Hsub).
  exists (map CallWcxp qs ++ tp), C. repeat split; auto.
  - apply (qxp_recur_weak CallWcxp (wcxp self) Hmono _ _ _ _ _ _ Er HS).
  - intros x Hx.
    apply (qxp_recur_minimal CallWcxp (wcxp self) Hmono _ _ _ _ _ _ Er HS Hne
             (fun _ => H0) x Hx).
Qed.

Lemma cxp_qxp_minimal_witness :
  exists t C,
    cxp_qxp (scenario 0) 3 [1; 2; 3] = (t, Ret C) /\
    sublist C [1; 2; 3] /\ scenario_wcxp C = true /\ minimal scenario_wcxp C.
Proof.
  apply (cxp_qxp_minimal (scenario 0) [1; 2; 3] 3 scenario_wcxp_monotone eq_refl).
  - discriminate.
  - reflexivity.
  - simpl. lia.
Defined.



(** X4.  [cxp_del(S)] returns, for every oracle and every list (repeated
    elements included), after exactly one call of [wcxp] per element of [S]
    and no call of [waxp]. *)
Theorem cxp_del_oracle_calls self S :
  exists t C,
    cxp_del self S = (t, Ret C) /\
    oracle_calls t = length S /\ waxp_calls t = O /\ sublist C S.
Proof.
  destruct (cxp_del_total self S) as (qs & tp & C & E & _ & Hlen & Hp & Hsub).
  exists (map CallWcxp qs ++ tp), C.
  destruct (prints_count tp Hp) as (P1 & P2 & _).
  destruct (wcxp_trace_count qs) as (Q1 & Q2 & _).
  repeat split; auto.
  - rewrite oracle_calls_app, P1, Q1. lia.
  - rewrite waxp_calls_app, P2, Q2. lia.
Qed.

(** ** A list on which the oracle fails *)

Section Unsatisfied.

Variable ev : list Z -> event.
Variable w : list Z -> bool.

(** When no removal is accepted the working list comes out as it went in. *)
Lemma del_loop_unchanged its :
  forall fix_,
    (forall x, (cnt its x <= cnt fix_ x)%nat) ->
    (forall i, In i its -> w (remove1 i fix_) = false) ->
    del_loop (ask ev w) its fix_ =
    (map ev (map (fun i => remove1 i fix_) its), Ret fix_).
Proof.
  induction its as [|i its IH]; intros fix_ Hcnt Hw.
  - reflexivity.
  - assert (Hin : In i fix_).
    { apply cnt_In. specialize (Hcnt i). rewrite cnt_cons, Z.eqb_refl in Hcnt. lia. }
    rewrite (del_loop_step _ _ _ _ _ Hin).
    rewrite (Hw i (or_introl eq_refl)).
    rewrite IH.
    + reflexivity.
    + intros x. specialize (Hcnt x). rewrite cnt_cons in Hcnt.
      destruct (Z.eqb i x); lia.
    + intros j Hj. apply Hw. now right.
Qed.

(** When the oracle fails on every list made of the base and of candidates,
    all the candidates are returned. *)
Lemma qxp_recur_unchanged d :
  forall B Z_ newB,
    Z_ <> [] -> (length Z_ <= d)%nat ->
    (forall T, incl T (B ++ Z_) -> w T = false) ->
    exists qs, qxp_recur (ask ev w) d B Z_ newB = (map ev qs, Ret Z_).
Proof.
  induction d as [|d IH]; intros B Z_ newB Hne Hlen Hw.
  - destruct Z_; [congruence | simpl in Hlen; lia].
  - cbn [qxp_recur].
    assert (HB : w B = false).
    { apply Hw. intros y Hy. apply in_app_iff. now left. }
    assert (E0 : (if newB then ask ev w B else ret false) =
                 (map ev (if newB then [B] else []), Ret false)).
    { destruct newB; [|reflexivity]. rewrite ask_val, HB. reflexivity. }
    rewrite (bind_val _ _ _ _ E0). clear E0.
    destruct (Nat.eqb (length Z_) 1) eqn:H1.
    { exists (if newB then [B] else []). simpl. now rewrite app_nil_r. }
    apply Nat.eqb_neq in H1.
    assert (H2 : (2 <= length Z_)%nat).
    { destruct Z_ as [|? [|? ?]]; simpl in *; try congruence; lia. }
    destruct (qxp_split_halves Z_ H2) as [Hl1 Hl2].
    pose proof (qxp_split_app Z_) as Happ.
    destruct (qxp_split Z_) as [Z1 Z2]. cbn [fst snd] in *.
    destruct (IH (B ++ Z1) Z2 (Nat.ltb 0 (length Z1))) as (qs2 & E2).
    { intros ->. simpl in *. lia. }
    { lia. }
    { intros T HT. apply Hw. rewrite <- Happ, app_assoc. exact HT. }
    destruct (IH (B ++ Z2) Z1 (Nat.ltb 0 (length Z2))) as (qs1 & E1).
    { intros ->. simpl in *. lia. }
    { lia. }
    { intros T HT. apply Hw. rewrite <- Happ. intros y Hy.
      specialize (HT y Hy). rewrite !in_app_iff in *. tauto. }
    rewrite (bind_val _ _ _ _ E2), (bind_val _ _ _ _ E1).
    exists ((if newB then [B] else []) ++ qs2 ++ qs1).
    simpl. rewrite !map_app, app_nil_r, Happ. reflexivity.
Qed.

End Unsatisfied.

(** X5.  The deletion based minimizers on a list that does not satisfy
    their precondition: when the oracle is monotone and fails on [S],
    [axp_del(S)] (resp. [cxp_del(S)]) returns [S] itself, after one oracle
    call per element. *)
Theorem del_precondition_violated self S :
  (monotone (waxp self) -> waxp self S = false ->
   exists t, axp_del self S = (t, Ret S) /\ oracle_calls t = length S) /\
  (monotone (wcxp self) -> wcxp self S = false ->
   exists t, cxp_del self S = (t, Ret S) /\ oracle_calls t = length S).
Proof.
  split; intros Hmono HS.
  - assert (E : del_loop (call_waxp self) S S =
                (map CallWaxp (map (fun i => remove1 i S) S), Ret S)).
    { apply (del_loop_unchanged CallWaxp (waxp self)).
      - intros x. lia.
      - intros i _. apply (monotone_false _ Hmono _ S); [|assumption].
        intros y. apply remove1_In. }
    destruct (reported_val self MsgAXpDel _ _ _ E) as (tp & E' & Hp).
    eexists. split; [exact E'|].
    rewrite oracle_calls_app.
    destruct (waxp_trace_count (map (fun i => remove1 i S) S)) as (-> & _).
    destruct (prints_count tp Hp) as (-> & _). rewrite length_map. lia.
  - assert (E : del_loop (call_wcxp self) S S =
                (map CallWcxp (map (fun i => remove1 i S) S), Ret S)).
    { apply (del_loop_unchanged CallWcxp (wcxp self)).
      - intros x. lia.
      - intros i _. apply (monotone_false _ Hmono _ S); [|assumption].
        intros y. apply remove1_In. }
    destruct (reported_val self MsgCXpDel _ _ _ E) as (tp & E' & Hp).
    eexists. split; [exact E'|].
    rewrite oracle_calls_app.
    destruct (wcxp_trace_count (map (fun i => remove1 i S) S)) as (-> & _).
    destruct (prints_count tp Hp) as (-> & _). rewrite length_map. lia.
Qed.

Lemma del_precondition_violated_witness :
  (exists t, axp_del (scenario 0) [2; 4] = (t, Ret [2; 4]) /\
             oracle_calls t = 2%nat) /\
  (exists t, cxp_del (scenario 0) [2; 4] = (t, Ret [2; 4]) /\
             oracle_calls t = 2%nat).
Proof.
  destruct (del_precondition_violated (scenario 0) [2; 4]) as [Ha Hc].
  split.
  - apply Ha; [apply scenario_waxp_monotone | reflexivity].
  - apply Hc; [apply scenario_wcxp_monotone | reflexivity].
Defined.

(** X6.  The QuickXplain minimizers on a list that does not satisfy their
    precondition: when the oracle is monotone and fails on the non-empty
    list [S], [axp_qxp(S)] (resp. [cxp_qxp(S)]) returns [S] itself. *)
Theorem qxp_precondition_violated self S depth :
  S <> [] -> (length S <= depth)%nat ->
  (monotone (waxp self) -> waxp self S = false ->
   exists t, axp_qxp self depth S = (t, Ret S)) /\
  (monotone (wcxp self) -> wcxp self S = false ->
   exists t, cxp_qxp self depth S = (t, Ret S)).
Proof.
  intros Hne Hlen. split; intros Hmono HS.
  - destruct (qxp_recur_unchanged CallWaxp (waxp self) depth [] S false Hne Hlen)
      as (qs & E).
    { intros T HT. apply (monotone_false _ Hmono _ S); assumption. }
    destruct (reported_val self MsgAXpQxp _ _ _ E) as (tp & E' & _). eauto.
  - destruct (qxp_recur_unchanged CallWcxp (wcxp self) depth [] S false Hne Hlen)
      as (qs & E).
    { intros T HT. apply (monotone_false _ Hmono _ S); assumption. }
    destruct (reported_val self MsgCXpQxp _ _ _ E) as (tp & E' & _). eauto.
Qed.

Lemma qxp_precondition_violated_witness :
  (exists t, axp_qxp (scenario 0) 3 [2; 4; 5] = (t, Ret [2; 4; 5])) /\
  (exists t, cxp_qxp (scenario 0) 3 [2; 4; 5] = (t, Ret [2; 4; 5])).
Proof.
  destruct (qxp_precondition_violated (scenario 0) [2; 4; 5] 3) as [Ha Hc].
  - discriminate.
  - simpl. lia.
  - split.
    + apply Ha; [apply scenario_waxp_monotone | reflexivity].
    + apply Hc; [apply scenario_wcxp_monotone | reflexivity].
Defined.

(** ** Oracle calls of QuickXplain *)

(** A call asks the oracle at most once itself, and there are at most
    2|Z| - 1 calls in the recursion. *)
Lemma qxp_recur_calls ev w d :
  forall B Z_ newB,
    Z_ <> [] -> (length Z_ <= d)%nat ->
    exists qs Q,
      qxp_recur (ask ev w) d B Z_ newB = (map ev qs, Ret Q) /\
      (length qs + (if newB then 0 else 1) <= 2 * length Z_ - 1)%nat.
Proof.
  induction d as [|d IH]; intros B Z_ newB Hne Hlen.
  - destruct Z_; [congruence | simpl in Hlen; lia].
  - cbn [qxp_recur].
    assert (Hpos : (1 <= length Z_)%nat).
    { destruct Z_; [congruence | simpl; lia]. }
    assert (E0 : (if newB then ask ev w B else ret false) =
                 (map ev (if newB then [B] else []), Ret (newB && w B))).
    { destruct newB; reflexivity. }
    rewrite (bind_val _ _ _ _ E0). clear E0.
    destruct (newB && w B).
    { exists (if newB then [B] else []), []. split.
      - simpl. now rewrite app_nil_r.
      - destruct newB; simpl; lia. }
    destruct (Nat.eqb (length Z_) 1) eqn:H1.
    { exists (if newB then [B] else []), Z_. split.
      - simpl. now rewrite app_nil_r.
      - destruct newB; simpl; lia. }
    apply Nat.eqb_neq in H1.
    assert (H2 : (2 <= length Z_)%nat) by lia.
    destruct (qxp_split_halves Z_ H2) as [Hl1 Hl2].
    pose proof (f_equal (@length Z) (qxp_split_app Z_)) as Happ.
    rewrite length_app in Happ.
    destruct (qxp_split Z_) as [Z1 Z2]. cbn [fst snd] in *.
    destruct (IH (B ++ Z1) Z2 (Nat.ltb 0 (length Z1))) as (qs2 & Q2 & E2 & C2).
    { intros ->. simpl in *. lia. }
    { lia. }
    destruct (IH (B ++ Q2) Z1 (Nat.ltb 0 (length Q2))) as (qs1 & Q1 & E1 & C1).
    { intros ->. simpl in *. lia. }
    { lia. }
    rewrite (bind_val _ _ _ _ E2), (bind_val _ _ _ _ E1).
    exists ((if newB then [B] else []) ++ qs2 ++ qs1), (Q1 ++ Q2). split.
    + simpl. rewrite !map_app, app_nil_r. reflexivity.
    + rewrite !length_app.
      replace (Nat.ltb 0 (length Z1)) with true in C2
        by (symmetry; apply Nat.ltb_lt; lia).
      destruct newB, (Nat.ltb 0 (length Q2)); simpl in *; lia.
Qed.

(** X7.  On a non-empty list [S], whatever the oracle answers, [axp_qxp(S)]
    and [cxp_qxp(S)] return after at most 2|S| - 2 oracle calls (none at
    all for a list of one element). *)
Theorem qxp_oracle_calls self S depth :
  S <> [] -> (length S <= depth)%nat ->
  (exists t A, axp_qxp self depth S = (t, Ret A) /\
               (oracle_calls t <= 2 * length S - 2)%nat) /\
  (exists t C, cxp_qxp self depth S = (t, Ret C) /\
               (oracle_calls t <= 2 * length S - 2)%nat).
Proof.
  intros Hne Hlen. split.
  - destruct (qxp_recur_calls CallWaxp (waxp self) depth [] S false Hne Hlen)
      as (qs & A & E & Hc).
    destruct (reported_val self MsgAXpQxp _ _ _ E) as (tp & E' & Hp).
    exists (map CallWaxp qs ++ tp), A. split; [exact E'|].
    rewrite oracle_calls_app.
    destruct (waxp_trace_count qs) as (-> & _).
    destruct (prints_count tp Hp) as (-> & _). lia.
  - destruct (qxp_recur_calls CallWcxp (wcxp self) depth [] S false Hne Hlen)
      as (qs & C & E & Hc).
    destruct (reported_val self MsgCXpQxp _ _ _ E) as (tp & E' & Hp).
    exists (map CallWcxp qs ++ tp), C. split; [exact E'|].
    rewrite oracle_calls_app.
    destruct (wcxp_trace_count qs) as (-> & _).
    destruct (prints_count tp Hp) as (-> & _). lia.
Qed.

Lemma qxp_oracle_calls_witness :
  (exists t A, axp_qxp (scenario 0) 3 [1; 2; 3] = (t, Ret A) /\
               (oracle_calls t <= 2 * 3 - 2)%nat) /\
  (exists t C, cxp_qxp (scenario 0) 3 [1; 2; 3] = (t, Ret C) /\
               (oracle_calls t <= 2 * 3 - 2)%nat).
Proof.
  apply (qxp_oracle_calls (scenario 0) [1; 2; 3] 3).
  - discriminate.
  - simpl. lia.
Defined.

(** ** The verifiers on what the minimizers return *)

Lemma check_axp_true self a :
  waxp self a = true -> minimal (waxp self) a ->
  exists t, check_axp self a = (t, Ret true).
Proof.
  intros Hw Hmin.
  destruct (check_val CallWaxp (waxp self) MsgNotWeakAXp a) as (t & E).
  exists t. rewrite (proj2 (check_answer (waxp self) a) (conj Hw Hmin)) in E.
  exact E.
Qed.

Lemma check_cxp_true self c :
  wcxp self c = true -> minimal (wcxp self) c ->
  exists t, check_cxp self c = (t, Ret true).
Proof.
  intros Hw Hmin.
  destruct (check_val CallWcxp (wcxp self) MsgNotWeakCXp c) as (t & E).
  exists t. rewrite (proj2 (check_answer (wcxp self) c) (conj Hw Hmin)) in E.
  exact E.
Qed.

(** X8.  The verifiers accept what the deletion based minimizers return:
    for a monotone oracle that holds on [S], [check_axp(axp_del(S))]
    (resp. [check_cxp(cxp_del(S))]) is True. *)
Theorem check_accepts_del self S :
  (monotone (waxp self) -> waxp self S = true ->
   exists t A t', axp_del self S = (t, Ret A) /\
                  check_axp self A = (t', Ret true)) /\
  (monotone (wcxp self) -> wcxp self S = true ->
   exists t C t', cxp_del self S = (t, Ret C) /\
                  check_cxp self C = (t', Ret true)).
Proof.
  split; intros Hmono HS.
  - destruct (axp_del_total self S) as (qs & tp & A & E & El & _).
    destruct (del_loop_minimal CallWaxp (waxp self) Hmono S S _ A El
                (del_inv_init _ S HS)) as (HA & Hmin & _).
    destruct (check_axp_true self A HA Hmin) as (t' & Ec). eauto.
  - destruct (cxp_del_total self S) as (qs & tp & C & E & El & _).
    destruct (del_loop_minimal CallWcxp (wcxp self) Hmono S S _ C El
                (del_inv_init _ S HS)) as (HC & Hmin & _).
    destruct (check_cxp_true self C HC Hmin) as (t' & Ec). eauto.
Qed.

Lemma check_accepts_del_witness :
  (exists t A t', axp_del (scenario 0) [1; 2; 3] = (t, Ret A) /\
                  check_axp (scenario 0) A = (t', Ret true)) /\
  (exists t C t', cxp_del (scenario 0) [1; 2; 3] = (t, Ret C) /\
                  check_cxp (scenario 0) C = (t', Ret true)).
Proof.
  destruct (check_accepts_del (scenario 0) [1; 2; 3]) as [Ha Hc]. split.
  - apply Ha; [apply scenario_waxp_monotone | reflexivity].
  - apply Hc; [apply scenario_wcxp_monotone | reflexivity].
Defined.

(** X9.  The verifiers accept what the QuickXplain minimizers return, on a
    non-empty list on which the monotone oracle holds, when the oracle
    fails on the empty list. *)
Theorem check_accepts_qxp self S depth :
  S <> [] -> (length S <= depth)%nat ->
  (monotone (waxp self) -> waxp self S = true -> waxp self [] = false ->
   exists t A t', axp_qxp self depth S = (t, Ret A) /\
                  check_axp self A = (t', Ret true)) /\
  (monotone (wcxp self) -> wcxp self S = true -> wcxp self [] = false ->
   exists t C t', cxp_qxp self depth S = (t, Ret C) /\
                  check_cxp self C = (t', Ret true)).
Proof.
  intros Hne Hlen. split; intros Hmono HS H0.
  - destruct (axp_qxp_total self depth S Hne Hlen) as (qs & tp & A & E & Er & _).
    assert (HA : waxp self A = true)
      by apply (qxp_recur_weak CallWaxp (waxp self) Hmono _ _ _ _ _ _ Er HS).
    assert (Hmin : minimal (waxp self) A).
    { intros x Hx.
      apply (qxp_recur_minimal CallWaxp (waxp self) Hmono _ _ _ _ _ _ Er HS Hne
               (fun _ => H0) x Hx). }
    destruct (check_axp_true self A HA Hmin) as (t' & Ec). eauto.
  - destruct (cxp_qxp_total self depth S Hne Hlen) as (qs & tp & C & E & Er & _).
    assert (HC : wcxp self C = true)
      by apply (qxp_recur_weak CallWcxp (wcxp self) Hmono _ _ _ _ _ _ Er HS).
    assert (Hmin : minimal (wcxp self) C).
    { intros x Hx.
      apply (qxp_recur_minimal CallWcxp (wcxp self) Hmono _ _ _ _ _ _ Er HS Hne
               (fun _ => H0) x Hx). }
    destruct (check_cxp_true self C HC Hmin) as (t' & Ec). eauto.
Qed.

Lemma check_accepts_qxp_witness :
  (exists t A t', axp_qxp (scenario 0) 3 [1; 2; 3] = (t, Ret A) /\
                  check_axp (scenario 0) A = (t', Ret true)) /\
  (exists t C t', cxp_qxp (scenario 0) 3 [1; 2; 3] = (t, Ret C) /\
                  check_cxp (scenario 0) C = (t', Ret true)).
Proof.
  destruct (check_accepts_qxp (scenario 0) [1; 2; 3] 3) as [Ha Hc].
  - discriminate.
  - simpl. lia.
  - split.
    + apply Ha; [apply scenario_waxp_monotone | reflexivity | reflexivity].
    + apply Hc; [apply scenario_wcxp_monotone | reflexivity | reflexivity].
Defined.

(** ** What the verifiers ask and print *)

Section VerifierTrace.

Variable ev : list Z -> event.
Variable w : list Z -> bool.

(** The loop stops at the first removal that keeps the oracle true, and
    prints then; otherwise it asks once per element and prints nothing. *)
Lemma check_loop_trace xp fix_ its :
  incl its fix_ ->
  exists qs tp b,
    check_loop (ask ev w) xp its fix_ = (map ev qs ++ tp, Ret b) /\
    (length qs <= length its)%nat /\
    (b = true -> qs = map (fun i => remove1 i fix_) its /\ tp = []) /\
    (b = false -> tp = [Print (MsgNotMinimal xp)]).
Proof.
  induction its as [|i its IH]; intros Hincl.
  - exists [], [], true. repeat split; auto; discriminate.
  - cbn [check_loop].
    rewrite (bind_val _ _ _ _ (list_remove_in i fix_ (Hincl i (or_introl eq_refl)))).
    rewrite (bind_val _ _ _ _ (ask_val ev w (remove1 i fix_))).
    cbn [fst snd]. destruct (w (remove1 i fix_)).
    + exists [remove1 i fix_], [Print (MsgNotMinimal xp)], false.
      repeat split; simpl; auto; try lia; discriminate.
    + destruct IH as (qs & tp & b & E & Hlen & Ht & Hf).
      { intros y Hy. apply Hincl. now right. }
      rewrite E. exists (remove1 i fix_ :: qs), tp, b.
      repeat split; simpl; auto; try lia.
      * destruct (Ht H) as [-> _]. reflexivity.
      * now destruct (Ht H).
Qed.

End VerifierTrace.

(** X10.  [check_axp(a)] asks the oracle at most |a| + 1 times.  When
    [waxp(a)] is false it answers False after this one call and prints
    that [a] is not a weak AXp; when it answers True it has asked about [a]
    and about [a] without each of its elements, in order, and has printed
    nothing; when it answers False it has printed exactly one message.
    The verbosity plays no part. *)
Theorem check_axp_trace self a :
  exists t b,
    check_axp self a = (t, Ret b) /\
    (oracle_calls t <= length a + 1)%nat /\
    (waxp self a = false ->
     t = [CallWaxp a; Print (MsgNotWeakAXp a)] /\ b = false) /\
    (b = true ->
     t = CallWaxp a :: map CallWaxp (map (fun i => remove1 i a) a)) /\
    (b = false -> length (filter is_print t) = 1%nat).
Proof.
  unfold check_axp. rewrite (bind_val _ _ _ _ (ask_val CallWaxp (waxp self) a)).
  cbn [fst snd]. destruct (waxp self a) eqn:Hw; cbn [negb].
  - destruct (check_loop_trace CallWaxp (waxp self) a a a (incl_refl _))
      as (qs & tp & b & E & Hlen & Ht & Hf).
    change (check_loop (call_waxp self) a a a)
      with (check_loop (ask CallWaxp (waxp self)) a a a).
    rewrite E. cbn [fst snd].
    exists ([CallWaxp a] ++ map CallWaxp qs ++ tp), b.
    split; [reflexivity|]. repeat split.
    + destruct b.
      * destruct (Ht eq_refl) as [_ ->].
        rewrite !oracle_calls_app.
        destruct (waxp_trace_count qs) as (-> & _).
        unfold oracle_calls; simpl. lia.
      * rewrite (Hf eq_refl). rewrite !oracle_calls_app.
        destruct (waxp_trace_count qs) as (-> & _).
        unfold oracle_calls; simpl. lia.
    + discriminate.
    + discriminate.
    + intros ->. destruct (Ht eq_refl) as [-> ->].
      now rewrite app_nil_r.
    + intros ->. rewrite (Hf eq_refl).
      rewrite !filter_app, !length_app.
      replace (filter is_print (map CallWaxp qs)) with (@nil event).
      * reflexivity.
      * clear. induction qs; simpl; auto.
  - exists [CallWaxp a; Print (MsgNotWeakAXp a)], false.
    repeat split; auto; try discriminate.
    unfold oracle_calls. simpl. lia.
Qed.

(** * Further properties of the enumeration *)

(** X11.  [enum] with an algorithm name other than 'del' and 'qxp': the
    first model being empty, the loop asks [wcxp([])], assigns neither
    [cxp] nor [axp], and fails with UnboundLocalError when it builds the
    blocking clause; no minimizer is called and nothing is returned. *)
Theorem enum_unknown_alg solve self depth fuel feats_idx alg :
  alg <> "del"%string -> alg <> "qxp"%string ->
  solve [] = Some [] ->
  enum solve self depth (S fuel) feats_idx alg =
  ([CallSolve true; CallWcxp []], Raise UnboundLocalError).
Proof.
  intros Hd Hq Hs. unfold enum. cbn [enum_loop]. rewrite Hs.
  apply String.eqb_neq in Hd, Hq. rewrite Hd, Hq.
  cbn. destruct (wcxp self []); reflexivity.
Qed.

Lemma enum_unknown_alg_witness :
  enum brute_solve (scenario 0) 3 9 [1; 2; 3] "deletion" =
  ([CallSolve true; CallWcxp []], Raise UnboundLocalError).
Proof.
  apply (enum_unknown_alg brute_solve (scenario 0) 3 8 [1; 2; 3] "deletion").
  - discriminate.
  - discriminate.
  - reflexivity.
Defined.

(** ** Where the explanations returned come from *)

Lemma complement_sublist feats_idx U : sublist (complement feats_idx U) feats_idx.
Proof.
  unfold complement. induction feats_idx as [|i l IH]; simpl.
  - constructor.
  - destruct (negb (mem i U)); [apply sublist_cons | apply sublist_skip];
      assumption.
Qed.

Section EnumProvenance.

Variable solve : list (list Z) -> option (list Z).
Variable self : LogicXplainer.
Variable depth : nat.
Variable feats_idx : list Z.
Variable alg : string.

Local Abbreviation pool := (register [] feats_idx).

(** An iteration that leads to a return, with the call of the minimizer. *)
Lemma enum_loop_inv_full fuel clauses axps cxps t r :
  enum_loop solve self depth (S fuel) feats_idx alg pool clauses axps cxps
  = (t, Ret r) ->
  (solve clauses = None /\ r = (axps, cxps)) \/
  exists model xp t1 t',
    solve clauses = Some model /\
    ((wcxp self (decode pool model) = true /\
      (if String.eqb alg "del" then cxp_del self (decode pool model)
       else if String.eqb alg "qxp" then cxp_qxp self depth (decode pool model)
            else raise UnboundLocalError) = (t1, Ret xp) /\
      enum_loop solve self depth fuel feats_idx alg pool
                (clauses ++ [map (fun i => -1 * var_of pool i) xp])
                axps (cxps ++ [xp]) = (t', Ret r)) \/
     (wcxp self (decode pool model) = false /\
      (if String.eqb alg "del"
       then axp_del self (complement feats_idx (decode pool model))
       else if String.eqb alg "qxp"
            then axp_qxp self depth (complement feats_idx (decode pool model))
            else raise UnboundLocalError) = (t1, Ret xp) /\
      enum_loop solve self depth fuel feats_idx alg pool
                (clauses ++ [map (fun i => 1 * var_of pool i) xp])
                (axps ++ [xp]) cxps = (t', Ret r))).
Proof.
  cbn [enum_loop]. intros H.
  destruct (solve clauses) as [model|].
  2:{ left. split; [reflexivity|]. cbn in H. now inversion H. }
  right. exists model.
  apply bind_ret_inv in H. destruct H as (t1 & [] & t2 & _ & H & ->).
  apply bind_ret_inv in H. destruct H as (t3 & univ & t4 & Er & H & ->).
  apply read_model_decode in Er. destruct Er as [-> Eu]. simpl in Eu. subst univ.
  apply bind_ret_inv in H. destruct H as (t5 & b & t6 & Eb & H & ->).
  cbn in Eb. inversion Eb; subst b t5. clear Eb.
  destruct (wcxp self (decode pool model)) eqn:Hw.
  - apply bind_ret_inv in H. destruct H as (t7 & xp & t8 & Em & H & ->).
    pose proof (minimize_cxp_ret self depth alg _ _ _ Em) as [Hsub _].
    rewrite new_vars_known in H.
    2:{ intros i Hi. eapply decode_incl, sublist_incl; eassumption. }
    exists xp, t7, t8. split; [reflexivity|]. left. auto.
  - apply bind_ret_inv in H. destruct H as (t7 & xp & t8 & Em & H & ->).
    pose proof (minimize_axp_ret self depth alg _ _ _ Em) as [Hsub _].
    rewrite new_vars_known in H.
    2:{ intros i Hi. apply pool_In.
        apply (sublist_incl _ _ Hsub) in Hi.
        apply (proj1 (complement_In _ _ _)) in Hi. tauto. }
    exists xp, t7, t8. split; [reflexivity|]. right. auto.
Qed.

(** Every AXp returned is a sublist of the features, every CXp returned is
    made of features. *)
Lemma enum_loop_features fuel :
  forall clauses axps cxps t r,
    enum_loop solve self depth fuel feats_idx alg pool clauses axps cxps
    = (t, Ret r) ->
    (forall a, In a axps -> sublist a feats_idx) ->
    (forall c, In c cxps -> incl c feats_idx) ->
    (forall a, In a (fst r) -> sublist a feats_idx) /\
    (forall c, In c (snd r) -> incl c feats_idx).
Proof.
  induction fuel as [|fuel IH]; intros clauses axps cxps t r H Ha Hc.
  - discriminate.
  - apply enum_loop_inv in H.
    destruct H as [[_ ->] | (model & xp & t' & _ & [H|H])].
    + split; assumption.
    + destruct H as (_ & Hsub & _ & H).
      apply (IH _ _ _ _ _ H); [assumption|].
      intros c Hin. apply in_app_iff in Hin. destruct Hin as [Hin|[<-|[]]]; auto.
      intros i Hi. apply pool_In.
      eapply decode_incl, sublist_incl; eassumption.
    + destruct H as (_ & Hsub & _ & H).
      apply (IH _ _ _ _ _ H); [|assumption].
      intros a Hin. apply in_app_iff in Hin. destruct Hin as [Hin|[<-|[]]]; auto.
      eapply sublist_trans; [eassumption | apply complement_sublist].
Qed.

(** When the loop returns, the solver has just refused the clauses, and
    each of them is the blocking clause of an explanation returned (or was
    there from the start); what was collected before is returned too. *)
Lemma enum_loop_final fuel :
  forall clauses axps cxps t r,
    enum_loop solve self depth fuel feats_idx alg pool clauses axps cxps
    = (t, Ret r) ->
    (forall a, In a axps -> In a (fst r)) /\
    (forall c, In c cxps -> In c (snd r)) /\
    exists clauses',
      solve clauses' = None /\
      forall cl, In cl clauses' ->
                 In cl clauses \/
                 (exists a, In a (fst r) /\
                            cl = map (fun i => 1 * var_of pool i) a) \/
                 (exists c, In c (snd r) /\
                            cl = map (fun i => -1 * var_of pool i) c).
Proof.
  induction fuel as [|fuel IH]; intros clauses axps cxps t r H.
  - discriminate.
  - apply enum_loop_inv in H.
    destruct H as [[Hs ->] | (model & xp & t' & _ & [H|H])].
    + split; [auto|]. split; [auto|]. exists clauses. auto.
    + destruct H as (_ & _ & _ & H).
      destruct (IH _ _ _ _ _ H) as (Ha & Hc & clauses' & Hs & Hcl).
      split; [assumption|].
      split; [intros c Hin; apply Hc, in_app_iff; now left|].
      exists clauses'. split; [assumption|].
      intros cl Hin. destruct (Hcl cl Hin) as [Hold|Hnew]; [|auto].
      apply in_app_iff in Hold. destruct Hold as [Hold|[<-|[]]]; [auto|].
      right. right. exists xp. split; [|reflexivity].
      apply Hc, in_app_iff. right. now left.
    + destruct H as (_ & _ & _ & H).
      destruct (IH _ _ _ _ _ H) as (Ha & Hc & clauses' & Hs & Hcl).
      split; [intros a Hin; apply Ha, in_app_iff; now left|].
      split; [assumption|].
      exists clauses'. split; [assumption|].
      intros cl Hin. destruct (Hcl cl Hin) as [Hold|Hnew]; [|auto].
      apply in_app_iff in Hold. destruct Hold as [Hold|[<-|[]]]; [auto|].
      right. left. exists xp. split; [|reflexivity].
      apply Ha, in_app_iff. right. now left.
Qed.

Hypothesis waxp_mono : monotone (waxp self).
Hypothesis oracles_dual : dual self feats_idx.
Hypothesis alg_del : alg = "del"%string.

(** With the deletion based minimizers every explanation collected is
    genuine: the oracle holds on it and no element can be removed. *)
Lemma enum_loop_genuine fuel :
  forall clauses axps cxps t r,
    enum_loop solve self depth fuel feats_idx alg pool clauses axps cxps
    = (t, Ret r) ->
    (forall a, In a axps -> waxp self a = true /\ minimal (waxp self) a) ->
    (forall c, In c cxps -> wcxp self c = true /\ minimal (wcxp self) c) ->
    (forall a, In a (fst r) -> waxp self a = true /\ minimal (waxp self) a) /\
    (forall c, In c (snd r) -> wcxp self c = true /\ minimal (wcxp self) c).
Proof.
  induction fuel as [|fuel IH]; intros clauses axps cxps t r H Ha Hc.
  - discriminate.
  - apply enum_loop_inv_full in H.
    destruct H as [[_ ->] | (model & xp & t1 & t' & _ & [H|H])].
    + split; assumption.
    + destruct H as (Hw & Em & H).
      apply (IH _ _ _ _ _ H); [assumption|].
      intros c Hin. apply in_app_iff in Hin. destruct Hin as [Hin|[<-|[]]]; auto.
      rewrite alg_del in Em. cbn [String.eqb Ascii.eqb Bool.eqb andb] in Em.
      apply reported_inv in Em. destruct Em as (t0 & tp & El & _ & _).
      destruct (del_loop_minimal CallWcxp (wcxp self)
                  (wcxp_mono self feats_idx waxp_mono oracles_dual)
                  _ _ _ _ El (del_inv_init _ _ Hw)) as (H1 & H2 & _).
      auto.
    + destruct H as (Hw & Em & H).
      apply (IH _ _ _ _ _ H); [|assumption].
      intros a Hin. apply in_app_iff in Hin. destruct Hin as [Hin|[<-|[]]]; auto.
      rewrite alg_del in Em. cbn [String.eqb Ascii.eqb Bool.eqb andb] in Em.
      apply reported_inv in Em. destruct Em as (t0 & tp & El & _ & _).
      rewrite oracles_dual in Hw. apply negb_false_iff in Hw.
      destruct (del_loop_minimal CallWaxp (waxp self) waxp_mono
                  _ _ _ _ El (del_inv_init _ _ Hw)) as (H1 & H2 & _).
      auto.
Qed.

End EnumProvenance.

(** X12.  Whatever the oracles, the solver and the algorithm, every AXp
    that [enum] returns is a sublist of [feats_idx] (its features in the
    order of [feats_idx]) and every CXp it returns is made of features of
    [feats_idx]. *)
Theorem enum_returns_features solve self depth fuel feats_idx alg t axps cxps :
  enum solve self depth fuel feats_idx alg = (t, Ret (axps, cxps)) ->
  (forall a, In a axps -> sublist a feats_idx) /\
  (forall c, In c cxps -> incl c feats_idx).
Proof.
  intros H. apply enum_inv in H. destruct H as (t0 & H).
  apply (enum_loop_features solve self depth feats_idx alg fuel _ _ _ _ _ H);
    intros ? [].
Qed.

Lemma enum_returns_features_witness :
  (forall a, In a [[3; 2]; [1]] -> sublist a [3; 1; 3; 2]) /\
  (forall c, In c [[1; 2]; [3; 1]] -> incl c [3; 1; 3; 2]).
Proof.
  apply (enum_returns_features brute_solve (scenario 0) 3 9 [3; 1; 3; 2] "del"
           [CallSolve true; CallWcxp []; CallWaxp [1; 3; 2]; CallWaxp [3; 2];
            CallWaxp [2]; CallWaxp [3];
            CallSolve true; CallWcxp [2]; CallWaxp [1; 3]; CallWaxp [3];
            CallWaxp [1];
            CallSolve true; CallWcxp [1; 2]; CallWcxp [2]; CallWcxp [1];
            CallSolve true; CallWcxp [3; 1]; CallWcxp [1]; CallWcxp [3];
            CallSolve false]).
  reflexivity.
Defined.

(** X13.  With the deletion based minimizers, a monotone [waxp] and dual
    oracles, every AXp that [enum] returns is accepted by [check_axp] and
    every CXp it returns by [check_cxp]. *)
Theorem enum_del_verified solve self depth fuel feats_idx t axps cxps :
  monotone (waxp self) ->
  dual self feats_idx ->
  enum solve self depth fuel feats_idx "del" = (t, Ret (axps, cxps)) ->
  (forall a, In a axps -> exists t', check_axp self a = (t', Ret true)) /\
  (forall c, In c cxps -> exists t', check_cxp self c = (t', Ret true)).
Proof.
  intros Hmono Hdual H. apply enum_inv in H. destruct H as (t0 & H).
  destruct (enum_loop_genuine solve self depth feats_idx "del" Hmono Hdual
              eq_refl fuel _ _ _ _ _ H) as [Ha Hc].
  { intros ? []. }
  { intros ? []. }
  split.
  - intros a Hin. destruct (Ha a Hin). now apply check_axp_true.
  - intros c Hin. destruct (Hc c Hin). now apply check_cxp_true.
Qed.

Lemma enum_del_verified_witness :
  (forall a, In a [[2; 3]; [1]] ->
             exists t', check_axp (scenario 0) a = (t', Ret true)) /\
  (forall c, In c [[1; 3]; [1; 2]] ->
             exists t', check_cxp (scenario 0) c = (t', Ret true)).
Proof.
  apply (enum_del_verified brute_solve (scenario 0) 3 9 [1; 2; 3]
           [CallSolve true; CallWcxp []; CallWaxp [2; 3]; CallWaxp [3];
            CallWaxp [2];
            CallSolve true; CallWcxp [3]; CallWaxp [2]; CallWaxp [1];
            CallSolve true; CallWcxp [1; 3]; CallWcxp [3]; CallWcxp [1];
            CallSolve true; CallWcxp [1; 2]; CallWcxp [2]; CallWcxp [1];
            CallSolve false]
           _ _ scenario_waxp_monotone scenario_dual).
  reflexivity.
Defined.

(** ** Completeness of the enumeration *)

Lemma remove1_keeps y x l : In y l -> y <> x -> In y (remove1 x l).
Proof.
  rewrite !cnt_In, cnt_remove1. intros H Hne.
  destruct (Z.eqb x y) eqn:E; [|lia].
  apply Z.eqb_eq in E. congruence.
Qed.

(** A weak explanation inside a minimal one has the same elements. *)
Lemma minimal_covered w A a :
  monotone w -> minimal w A -> w a = true -> incl a A -> incl A a.
Proof.
  intros Hmono Hmin Ha Hincl x Hx.
  destruct (mem x a) eqn:E; [now apply mem_In|].
  apply mem_false in E. exfalso.
  assert (Hrem : incl a (remove1 x A)).
  { intros y Hy. apply remove1_keeps; [auto|]. intros ->. tauto. }
  specialize (Hmin x Hx). rewrite (Hmono _ _ Hrem Ha) in Hmin. discriminate.
Qed.

(** Every literal of the clauses is a variable counted by [nof_vars]. *)
Lemma nof_vars_ge clauses c l :
  In c clauses -> In l c -> Z.abs l <= Z.of_nat (nof_vars clauses).
Proof.
  unfold nof_vars. induction clauses as [|c' clauses IH]; intros Hc Hl; [destruct Hc|].
  cbn [fold_right].
  set (n := fold_right
              (fun c n => fold_right (fun l m => Nat.max (Z.to_nat (Z.abs l)) m) n c)
              O clauses) in *.
  assert (Hmono : forall c0, (n <= fold_right
             (fun l m => Nat.max (Z.to_nat (Z.abs l)) m) n c0)%nat).
  { induction c0; simpl; lia. }
  destruct Hc as [->|Hc].
  - clear IH. induction c as [|l' c IHc]; [destruct Hl|].
    simpl. destruct Hl as [->|Hl]; [lia|].
    specialize (IHc Hl). lia.
  - specialize (IH Hc Hl). specialize (Hmono c'). lia.
Qed.

Section ModelFor.

Variable pool : IDPool.
Variable k : nat.
Variable U : list Z.

Lemma model_for_shape : map Z.abs (model_for pool k U) = variables k.
Proof.
  unfold model_for. rewrite map_map.
  rewrite <- (map_id (variables k)) at 2.
  apply map_ext_in. intros v Hv. apply variables_In in Hv.
  destruct (vpool_obj pool v) as [i|]; [destruct (mem i U)|]; lia.
Qed.

(** The variable of a feature is true in the model exactly when the
    feature is in [U]. *)
Lemma model_for_pos i :
  In i pool -> var_of pool i <= Z.of_nat k ->
  mem i U = true -> In (var_of pool i) (model_for pool k U).
Proof.
  intros Hi Hk Hm. unfold model_for. apply in_map_iff.
  exists (var_of pool i). split.
  - rewrite (vpool_obj_var_of _ _ Hi), Hm. reflexivity.
  - apply variables_In. pose proof (var_of_range _ _ Hi). lia.
Qed.

Lemma model_for_neg i :
  In i pool -> var_of pool i <= Z.of_nat k ->
  mem i U = false -> In (- var_of pool i) (model_for pool k U).
Proof.
  intros Hi Hk Hm. unfold model_for. apply in_map_iff.
  exists (var_of pool i). split.
  - rewrite (vpool_obj_var_of _ _ Hi), Hm. reflexivity.
  - apply variables_In. pose proof (var_of_range _ _ Hi). lia.
Qed.

End ModelFor.

Section EnumComplete.

Variable solve : list (list Z) -> option (list Z).
Variable self : LogicXplainer.
Variable depth : nat.
Variable feats_idx : list Z.
Variable alg : string.

Hypothesis solve_complete : solver_complete solve.
Hypothesis waxp_mono : monotone (waxp self).
Hypothesis oracles_dual : dual self feats_idx.

Local Abbreviation pool := (register [] feats_idx).

(** When the solver refuses clauses that block weak AXps and weak CXps,
    for every list [U] of features to free there is an AXp found that
    [U] leaves fixed, or a CXp found that [U] frees. *)
Lemma refused_assignment clauses axps cxps U :
  solve clauses = None ->
  (forall cl, In cl clauses ->
              (exists a, In a axps /\ cl = map (fun i => 1 * var_of pool i) a) \/
              (exists c, In c cxps /\ cl = map (fun i => -1 * var_of pool i) c)) ->
  (forall a, In a axps -> incl a feats_idx) ->
  (forall c, In c cxps -> incl c feats_idx) ->
  (exists a, In a axps /\ forall i, In i a -> ~ In i U) \/
  (exists c, In c cxps /\ incl c U).
Proof.
  intros Hs Hcl Ha Hc.
  destruct (solve_complete clauses (model_for pool (nof_vars clauses) U) Hs
              (model_for_shape pool _ U)) as (cl & Hin & Hfalse).
  destruct (Hcl cl Hin) as [(a & Hina & ->)|(c & Hinc & ->)].
  - left. exists a. split; [assumption|]. intros i Hi HU.
    apply (Hfalse (1 * var_of pool i));
      [apply in_map_iff; exists i; split; [reflexivity | assumption]|].
    rewrite Z.mul_1_l. apply model_for_pos.
    + apply pool_In, (Ha a Hina i Hi).
    + pose proof (nof_vars_ge clauses _ (1 * var_of pool i) Hin
                    (in_map (fun i => 1 * var_of pool i) _ _ Hi)) as Hb.
      pose proof (var_of_range _ _ (proj2 (pool_In feats_idx i) (Ha a Hina i Hi))).
      lia.
    + now apply mem_In.
  - right. exists c. split; [assumption|]. intros i Hi.
    destruct (mem i U) eqn:E; [now apply mem_In|]. exfalso.
    apply (Hfalse (-1 * var_of pool i));
      [apply in_map_iff; exists i; split; [reflexivity | assumption]|].
    replace (-1 * var_of pool i) with (- var_of pool i) by lia.
    apply model_for_neg.
    + apply pool_In, (Hc c Hinc i Hi).
    + pose proof (nof_vars_ge clauses _ (-1 * var_of pool i) Hin
                    (in_map (fun i => -1 * var_of pool i) _ _ Hi)) as Hb.
      pose proof (var_of_range _ _ (proj2 (pool_In feats_idx i) (Hc c Hinc i Hi))).
      lia.
    + assumption.
Qed.

(** What a returning run has collected. *)
Lemma enum_collected fuel t axps cxps :
  enum solve self depth fuel feats_idx alg = (t, Ret (axps, cxps)) ->
  (forall a, In a axps -> waxp self a = true /\ incl a feats_idx) /\
  (forall c, In c cxps -> wcxp self c = true /\ incl c feats_idx) /\
  forall U,
    (exists a, In a axps /\ forall i, In i a -> ~ In i U) \/
    (exists c, In c cxps /\ incl c U).
Proof.
  intros H. apply enum_inv in H. destruct H as (t0 & H).
  destruct (enum_loop_weak solve self depth feats_idx alg waxp_mono oracles_dual
              fuel _ _ _ _ _ H) as [Ha Hc].
  { intros ? []. }
  { intros ? []. }
  destruct (enum_loop_features solve self depth feats_idx alg fuel _ _ _ _ _ H)
    as [_ Hcf].
  { intros ? []. }
  { intros ? []. }
  destruct (enum_loop_final solve self depth feats_idx alg fuel _ _ _ _ _ H)
    as (_ & _ & clauses' & Hs & Hcl).
  cbn [fst snd] in *.
  split; [assumption|]. split; [auto|].
  intros U. apply (refused_assignment clauses' axps cxps U Hs).
  - intros cl Hin. destruct (Hcl cl Hin) as [[]|H']. exact H'.
  - intros a Hin. apply (Ha a Hin).
  - assumption.
Qed.

End EnumComplete.

(** X14.  Completeness for the AXps.  With a complete solver, a monotone
    [waxp] and dual oracles, when [enum] returns, every AXp over the
    features (a list of features on which [waxp] holds and from which no
    element can be removed) has the same elements as one of the AXps
    returned. *)
Theorem enum_finds_every_axp solve self depth fuel feats_idx alg t axps cxps :
  solver_complete solve ->
  monotone (waxp self) ->
  dual self feats_idx ->
  enum solve self depth fuel feats_idx alg = (t, Ret (axps, cxps)) ->
  forall A,
    incl A feats_idx -> waxp self A = true -> minimal (waxp self) A ->
    exists a, In a axps /\ same_set a A.
Proof.
  intros Hcomp Hmono Hdual H A HAf HAw HAmin.
  destruct (enum_collected solve self depth feats_idx alg Hcomp Hmono Hdual
              fuel t axps cxps H) as (Ha & Hc & Hall).
  destruct (Hall (complement feats_idx A)) as [(a & Hin & Hfix)|(c & Hin & Hfree)].
  - exists a. split; [assumption|].
    destruct (Ha a Hin) as [Haw Haf].
    assert (Hincl : incl a A).
    { intros i Hi. destruct (mem i A) eqn:E; [now apply mem_In|].
      apply mem_false in E. exfalso. apply (Hfix i Hi).
      apply complement_In. split; auto. }
    split; [assumption|].
    apply (minimal_covered (waxp self) A a Hmono HAmin Haw Hincl).
  - exfalso. destruct (Hc c Hin) as [Hcw _].
    destruct (weak_axp_hits_weak_cxp self feats_idx Hmono Hdual A c HAw HAf Hcw)
      as (x & HxA & Hxc).
    apply Hfree, complement_In in Hxc. tauto.
Qed.

(** X15.  Completeness for the CXps.  Under the same conditions every CXp
    (a list on which [wcxp] holds and from which no element can be
    removed) has the same elements as one of the CXps returned. *)
Theorem enum_finds_every_cxp solve self depth fuel feats_idx alg t axps cxps :
  solver_complete solve ->
  monotone (waxp self) ->
  dual self feats_idx ->
  enum solve self depth fuel feats_idx alg = (t, Ret (axps, cxps)) ->
  forall C,
    wcxp self C = true -> minimal (wcxp self) C ->
    exists c, In c cxps /\ same_set c C.
Proof.
  intros Hcomp Hmono Hdual H C HCw HCmin.
  destruct (enum_collected solve self depth feats_idx alg Hcomp Hmono Hdual
              fuel t axps cxps H) as (Ha & Hc & Hall).
  destruct (Hall C) as [(a & Hin & Hfix)|(c & Hin & Hfree)].
  - exfalso. destruct (Ha a Hin) as [Haw Haf].
    destruct (weak_axp_hits_weak_cxp self feats_idx Hmono Hdual a C Haw Haf HCw)
      as (x & Hxa & HxC).
    apply (Hfix x Hxa HxC).
  - exists c. split; [assumption|]. destruct (Hc c Hin) as [Hcw _].
    split; [assumption|].
    apply (minimal_covered (wcxp self) C c
             (wcxp_mono self feats_idx Hmono Hdual) HCmin Hcw Hfree).
Qed.

(** The reference solver is complete. *)
Lemma assignments_complete k :
  forall v m,
    0 <= v ->
    map Z.abs m = map (fun i => v + Z.of_nat i) (seq 1 k) ->
    In m (assignments v k).
Proof.
  induction k as [|k IH]; intros v m Hv Hm.
  - destruct m; [now left | discriminate].
  - cbn [seq map] in Hm. destruct m as [|l m]; [discriminate|].
    cbn [map] in Hm. injection Hm as Hl Hm.
    assert (Hin : In m (assignments (v + 1) k)).
    { apply IH; [lia|]. rewrite Hm, <- seq_shift, map_map.
      apply map_ext. intros i. lia. }
    cbn [assignments]. apply in_app_iff.
    destruct (Z.abs_spec l) as [[_ E]|[_ E]].
    + right. replace l with (v + 1) by lia. now apply in_map.
    + left. replace l with (- (v + 1)) by lia. now apply in_map.
Qed.

Lemma brute_solve_complete : solver_complete brute_solve.
Proof.
  intros clauses model Hs Hshape. unfold brute_solve in Hs.
  assert (Hin : In model (assignments 0 (nof_vars clauses))).
  { apply assignments_complete; [lia|]. rewrite Hshape. unfold variables.
    apply map_ext. intros i. lia. }
  pose proof (find_none _ _ Hs model Hin) as Hsat. unfold model_sat in Hsat.
  clear Hs Hin Hshape. induction clauses as [|c clauses IH]; [discriminate|].
  cbn [forallb] in Hsat. apply andb_false_iff in Hsat.
  destruct Hsat as [Hc|Hrest].
  - exists c. split; [now left|]. intros l Hl Hm.
    unfold clause_sat in Hc.
    assert (existsb (fun l => mem l model) c = true); [|congruence].
    apply existsb_exists. exists l. split; [assumption | now apply mem_In].
  - destruct (IH Hrest) as (c' & Hin & Hf). exists c'. split; [now right | assumption].
Qed.

Lemma enum_finds_every_axp_witness :
  exists a, In a [[2; 3]; [1]] /\ same_set a [3; 2].
Proof.
  apply (enum_finds_every_axp brute_solve (scenario 0) 3 9 [1; 2; 3] "del"
           [CallSolve true; CallWcxp []; CallWaxp [2; 3]; CallWaxp [3];
            CallWaxp [2];
            CallSolve true; CallWcxp [3]; CallWaxp [2]; CallWaxp [1];
            CallSolve true; CallWcxp [1; 3]; CallWcxp [3]; CallWcxp [1];
            CallSolve true; CallWcxp [1; 2]; CallWcxp [2]; CallWcxp [1];
            CallSolve false]
           [[2; 3]; [1]] [[1; 3]; [1; 2]]
           brute_solve_complete scenario_waxp_monotone scenario_dual eq_refl).
  - intros i [<-|[<-|[]]]; simpl; auto.
  - reflexivity.
  - intros x [<-|[<-|[]]]; reflexivity.
Defined.

Lemma enum_finds_every_cxp_witness :
  exists c, In c [[1; 3]; [1; 2]] /\ same_set c [2; 1].
Proof.
  apply (enum_finds_every_cxp brute_solve (scenario 0) 3 9 [1; 2; 3] "del"
           [CallSolve true; CallWcxp []; CallWaxp [2; 3]; CallWaxp [3];
            CallWaxp [2];
            CallSolve true; CallWcxp [3]; CallWaxp [2]; CallWaxp [1];
            CallSolve true; CallWcxp [1; 3]; CallWcxp [3]; CallWcxp [1];
            CallSolve true; CallWcxp [1; 2]; CallWcxp [2]; CallWcxp [1];
            CallSolve false]
           [[2; 3]; [1]] [[1; 3]; [1; 2]]
           brute_solve_complete scenario_waxp_monotone scenario_dual eq_refl).
  - reflexivity.
  - intros x [<-|[<-|[]]]; reflexivity.
Defined.

(** ** The two degenerate classifiers *)

(** A minimal list on which the oracle holds is empty when the oracle holds
    on the empty list. *)
Lemma minimal_empty w A :
  monotone w -> w [] = true -> minimal w A -> A = [].
Proof.
  intros Hmono H0 Hmin. destruct A as [|x A]; [reflexivity|].
  specialize (Hmin x (or_introl eq_refl)).
  rewrite (Hmono [] _ (incl_nil_l _) H0) in Hmin. discriminate.
Qed.

(** The solver refuses the empty clause. *)
Lemma solve_empty_clause solve clauses :
  solver_sound solve -> In [] clauses -> solve clauses = None.
Proof.
  intros Hsound Hin. destruct (solve clauses) as [model|] eqn:E; [|reflexivity].
  destruct (Hsound _ _ E) as [_ Hsat].
  destruct (Hsat [] Hin) as (l & [] & _).
Qed.

(** X16.  The degenerate classifiers, with the deletion based minimizers
    and a solver that meets its contract and gives the empty model first.
    When nothing has to be fixed ([waxp] monotone and true on the empty
    list, [wcxp([])] false), [enum] returns the empty AXp and no CXp; when
    nothing guarantees the outcome ([wcxp([])] true), it returns the empty
    CXp and no AXp.  In both cases the empty blocking clause ends the loop
    after one iteration. *)
Theorem enum_del_degenerate solve self depth fuel feats_idx :
  solver_sound solve ->
  solve [] = Some [] ->
  (monotone (waxp self) -> waxp self [] = true -> wcxp self [] = false ->
   exists t, enum solve self depth (S (S fuel)) feats_idx "del"
             = (t, Ret ([[]], [])) /\ iterations t = 1%nat) /\
  (wcxp self [] = true ->
   exists t, enum solve self depth (S (S fuel)) feats_idx "del"
             = (t, Ret ([], [[]])) /\ iterations t = 1%nat).
Proof.
  intros Hsound Hs.
  assert (Hnone : solve [[]] = None)
    by (apply solve_empty_clause; [assumption | now left]).
  assert (Hprint : forall r : list (list Z) * list (list Z),
             exists tp,
               (if negb (verbose self =? 0)
                then tell (Print (MsgNumAXp (length (fst r)))) ;;
                     tell (Print (MsgNumCXp (length (snd r)))) ;;
                     tell (Print MsgRuntime)
                else ret tt) = (tp, Ret tt) /\ forallb is_print tp = true).
  { intros r. destruct (negb (verbose self =? 0)); eexists; split; reflexivity. }
  split.
  - intros Hmono H0 Hw.
    destruct (axp_del_total self (complement feats_idx []))
      as (qs & tp & A & E & El & _ & Hp & _).
    assert (HA : A = []).
    { destruct (del_loop_minimal CallWaxp (waxp self) Hmono _ _ _ _ El
                  (del_inv_init _ _ (Hmono [] _ (incl_nil_l _) H0)))
        as (_ & Hmin & _).
      apply (minimal_empty (waxp self) A Hmono H0 Hmin). }
    subst A.
    assert (El' : enum_loop solve self depth (S (S fuel)) feats_idx "del"
                    (register [] feats_idx) [] [] [] =
                  (CallSolve true :: CallWcxp [] :: (map CallWaxp qs ++ tp)
                     ++ [CallSolve false], Ret ([[]], []))).
    { rewrite (enum_loop_step_axp solve self depth feats_idx "del" (S fuel)
                 [] [] [] [] (map CallWaxp qs ++ tp) [] Hs eq_refl Hw E
                 (incl_nil_l _)).
      cbn [enum_loop map app]. rewrite Hnone. reflexivity. }
    unfold enum. rewrite (bind_val _ _ _ _ El').
    destruct (Hprint ([[]], [])) as (tq & Eq & Hq).
    rewrite (bind_val _ _ _ _ Eq). cbn [fst snd ret].
    eexists. split; [reflexivity|].
    change (CallSolve true :: CallWcxp [] :: (map CallWaxp qs ++ tp) ++ [CallSolve false])
      with ([CallSolve true; CallWcxp []] ++ (map CallWaxp qs ++ tp) ++ [CallSolve false]).
    rewrite !iterations_app.
    destruct (waxp_trace_count qs) as (_ & _ & ->).
    destruct (prints_count tp Hp) as (_ & _ & -> & _).
    destruct (prints_count tq Hq) as (_ & _ & -> & _).
    reflexivity.
  - intros Hw.
    destruct (cxp_del_total self []) as (qs & tp & C & E & _ & _ & Hp & Hsub).
    assert (HC : C = []) by (inversion Hsub; reflexivity).
    subst C.
    assert (El' : enum_loop solve self depth (S (S fuel)) feats_idx "del"
                    (register [] feats_idx) [] [] [] =
                  (CallSolve true :: CallWcxp [] :: (map CallWcxp qs ++ tp)
                     ++ [CallSolve false], Ret ([], [[]]))).
    { rewrite (enum_loop_step_cxp solve self depth feats_idx "del" (S fuel)
                 [] [] [] [] (map CallWcxp qs ++ tp) [] Hs eq_refl Hw E
                 (incl_nil_l _)).
      cbn [enum_loop map app]. rewrite Hnone. reflexivity. }
    unfold enum. rewrite (bind_val _ _ _ _ El').
    destruct (Hprint ([], [[]])) as (tq & Eq & Hq).
    rewrite (bind_val _ _ _ _ Eq). cbn [fst snd ret].
    eexists. split; [reflexivity|].
    change (CallSolve true :: CallWcxp [] :: (map CallWcxp qs ++ tp) ++ [CallSolve false])
      with ([CallSolve true; CallWcxp []] ++ (map CallWcxp qs ++ tp) ++ [CallSolve false]).
    rewrite !iterations_app.
    destruct (wcxp_trace_count qs) as (_ & _ & ->).
    destruct (prints_count tp Hp) as (_ & _ & -> & _).
    destruct (prints_count tq Hq) as (_ & _ & -> & _).
    reflexivity.
Qed.

Lemma enum_del_degenerate_witness :
  exists t, enum brute_solve constant_explainer 0 2 [1; 2] "del"
            = (t, Ret ([[]], [])) /\ iterations t = 1%nat.
Proof.
  destruct (enum_del_degenerate brute_solve constant_explainer 0 0 [1; 2]
              brute_solve_sound eq_refl) as [H _].
  apply H; [|reflexivity|reflexivity].
  intros T T' _ _. reflexivity.
Defined.

(** ** The explanations enumerated with QuickXplain *)

Section EnumQuickXplain.

Variable solve : list (list Z) -> option (list Z).
Variable self : LogicXplainer.
Variable depth : nat.
Variable feats_idx : list Z.

Hypothesis waxp_mono : monotone (waxp self).
Hypothesis oracles_dual : dual self feats_idx.
Hypothesis waxp_empty : waxp self [] = false.
Hypothesis wcxp_empty : wcxp self [] = false.

Local Abbreviation pool := (register [] feats_idx).

(** A returning call of QuickXplain on a list on which the oracle holds,
    the oracle failing on the empty list. *)
Lemma qxp_reported_genuine ev w msg S t A :
  monotone w -> w [] = false -> w S = true ->
  (xp <- qxp_recur (ask ev w) depth [] S false ;; report self (msg xp) ;; ret xp)
  = (t, Ret A) ->
  w A = true /\ minimal w A.
Proof.
  intros Hmono H0 HS H.
  apply reported_inv in H. destruct H as (t0 & tp & E & _ & _).
  assert (Hne : S <> []) by (intros ->; congruence).
  split.
  - apply (qxp_recur_weak ev w Hmono _ _ _ _ _ _ E HS).
  - intros x Hx.
    apply (qxp_recur_minimal ev w Hmono _ _ _ _ _ _ E HS Hne (fun _ => H0) x Hx).
Qed.

Lemma enum_loop_genuine_qxp fuel :
  forall clauses axps cxps t r,
    enum_loop solve self depth fuel feats_idx "qxp" pool clauses axps cxps
    = (t, Ret r) ->
    (forall a, In a axps -> waxp self a = true /\ minimal (waxp self) a) ->
    (forall c, In c cxps -> wcxp self c = true /\ minimal (wcxp self) c) ->
    (forall a, In a (fst r) -> waxp self a = true /\ minimal (waxp self) a) /\
    (forall c, In c (snd r) -> wcxp self c = true /\ minimal (wcxp self) c).
Proof.
  induction fuel as [|fuel IH]; intros clauses axps cxps t r H Ha Hc.
  - discriminate.
  - apply enum_loop_inv_full in H.
    destruct H as [[_ ->] | (model & xp & t1 & t' & _ & [H|H])].
    + split; assumption.
    + destruct H as (Hw & Em & H).
      apply (IH _ _ _ _ _ H); [assumption|].
      intros c Hin. apply in_app_iff in Hin. destruct Hin as [Hin|[<-|[]]]; auto.
      cbn [String.eqb Ascii.eqb Bool.eqb andb] in Em.
      apply (qxp_reported_genuine CallWcxp (wcxp self) MsgCXpQxp _ _ _
               (wcxp_mono self feats_idx waxp_mono oracles_dual)
               wcxp_empty Hw Em).
    + destruct H as (Hw & Em & H).
      apply (IH _ _ _ _ _ H); [|assumption].
      intros a Hin. apply in_app_iff in Hin. destruct Hin as [Hin|[<-|[]]]; auto.
      cbn [String.eqb Ascii.eqb Bool.eqb andb] in Em.
      rewrite oracles_dual in Hw. apply negb_false_iff in Hw.
      apply (qxp_reported_genuine CallWaxp (waxp self) MsgAXpQxp _ _ _
               waxp_mono waxp_empty Hw Em).
Qed.

End EnumQuickXplain.

(** X19.  With the QuickXplain minimizers, a monotone [waxp], dual oracles
    and both oracles false on the empty list, every AXp that [enum]
    returns is accepted by [check_axp] and every CXp it returns by
    [check_cxp]. *)
Theorem enum_qxp_verified solve self depth fuel feats_idx t axps cxps :
  monotone (waxp self) ->
  dual self feats_idx ->
  waxp self [] = false -> wcxp self [] = false ->
  enum solve self depth fuel feats_idx "qxp" = (t, Ret (axps, cxps)) ->
  (forall a, In a axps -> exists t', check_axp self a = (t', Ret true)) /\
  (forall c, In c cxps -> exists t', check_cxp self c = (t', Ret true)).
Proof.
  intros Hmono Hdual Ha0 Hc0 H. apply enum_inv in H. destruct H as (t0 & H).
  destruct (enum_loop_genuine_qxp solve self depth feats_idx Hmono Hdual Ha0 Hc0
              fuel _ _ _ _ _ H) as [Ha Hc].
  { intros ? []. }
  { intros ? []. }
  split.
  - intros a Hin. destruct (Ha a Hin). now apply check_axp_true.
  - intros c Hin. destruct (Hc c Hin). now apply check_cxp_true.
Qed.

Lemma enum_qxp_verified_witness :
  (forall a, In a [[1]; [2; 3]] ->
             exists t', check_axp (scenario 0) a = (t', Ret true)) /\
  (forall c, In c [[1; 3]; [1; 2]] ->
             exists t', check_cxp (scenario 0) c = (t', Ret true)).
Proof.
  apply (enum_qxp_verified brute_solve (scenario 0) 3 9 [1; 2; 3]
           [CallSolve true; CallWcxp []; CallWaxp [1];
            CallSolve true; CallWcxp [1]; CallWaxp [2]; CallWaxp [3];
            CallSolve true; CallWcxp [1; 3]; CallWcxp [1]; CallWcxp [3];
            CallSolve true; CallWcxp [1; 2]; CallWcxp [1]; CallWcxp [2];
            CallSolve false]
           _ _ scenario_waxp_monotone scenario_dual eq_refl eq_refl).
  reflexivity.
Defined.
